(** * Mean Trophic Level of a fishery catch: [src/metrics.py]

    A shallow embedding of [calculate_mtl] and of the module constant
    [TROPHIC_LEVELS], with the properties of the specification proved
    about it.

    Python floats are IEEE 754 binary64 numbers; they are embedded as
    Rocq's primitive floats, whose operations are specified by
    [SpecFloat].  The arithmetic the function uses is collected in the
    class [PyFloat], of which binary64 is the instance.  Where a
    property is about the size of a rounding error, a finite float is
    read as the rational number it denotes. *)

From Stdlib Require Import ZArith QArith Qpower Lqa Floats.
From stdpp Require Import gmap strings list fin_maps.

Local Open Scope string_scope.
Set Warnings "-inexact-float".

(** ** Numbers *)

(** The operations [calculate_mtl] applies to catch masses and trophic
    levels: [0.0], [nan], [+], [*], [/], [<=], [==] and [pd.isna]. *)
Class PyFloat (F : Type) := {
  fzero : F;
  fnan : F;
  fadd : F -> F -> F;
  fmul : F -> F -> F;
  fdiv : F -> F -> F;
  fleb : F -> F -> bool;
  feqb : F -> F -> bool;
  fisnan : F -> bool;
}.

(** Python's [float]: binary64. *)
#[export] Instance binary64 : PyFloat float := {
  fzero := 0%float;
  fnan := PrimFloat.nan;
  fadd := PrimFloat.add;
  fmul := PrimFloat.mul;
  fdiv := PrimFloat.div;
  fleb := PrimFloat.leb;
  feqb := PrimFloat.eqb;
  fisnan := PrimFloat.is_nan;
}.

(** ** Python values, exceptions and the interpreter state *)

(** The text of an f-string: literal pieces and formatted values.  A
    formatted [set] is kept as a set, since the order in which Python
    prints its elements is not fixed. *)
Inductive fragment : Type :=
  | FStr (s : string)
  | FSet (s : gset string).

Definition message : Type := list fragment.

Inductive exn : Type :=
  | TypeError (msg : message)
  | ValueError (msg : message)
  | KeyError (key : string)
  | AttributeError (attr : string)
  | ZeroDivisionError (msg : message).

Inductive outcome (A : Type) : Type :=
  | Return (a : A)
  | Raise (e : exn).
Arguments Return {A} a.
Arguments Raise {A} e.

Definition loc : Type := nat.

(** What a caller may pass to [calculate_mtl]: a reference to a
    DataFrame on the heap, or some other Python value. *)
Inductive value : Type :=
  | VNone
  | VInt (n : Z)
  | VStr (s : string)
  | VList (items : list (string * Z))
  | VRef (l : loc).

Section Model.
Context {F : Type} {arith : PyFloat F}.

(** An entry of the [catch_kg] column: a number (a string that parses
    as a number counts as that number), or a string that
    [pd.to_numeric] cannot parse. *)
Inductive cell : Type :=
  | Num (x : F)
  | Unparsable (s : string).

(** A row, read at the two labels the function uses. *)
Record Row : Type := mkRow {
  species_name : string;
  catch_kg : cell;
}.

(** A DataFrame: its column labels and its rows.  A label may occur
    more than once among the columns. *)
Record DataFrame : Type := mkDataFrame {
  columns : list string;
  rows : list Row;
}.

(** What [df[label]] gives: the column as a Series, or, when the label
    occurs more than once, a DataFrame of the columns that carry it. *)
Inductive selection : Type :=
  | OneColumn (col : list cell)
  | SubFrame.

(** What [row[label]] gives: the entry itself, or, when the label
    occurs more than once, a Series of the entries that carry it. *)
Inductive entry (A : Type) : Type :=
  | Scalar (a : A)
  | SubSeries.

(** The interpreter state the function can see: the heap of
    DataFrames, the dict bound to the module global [TROPHIC_LEVELS],
    and the records the module's logger has emitted. *)
Record State : Type := mkState {
  heap : gmap loc DataFrame;
  trophic_levels : gmap string F;
  warnings : list message;
}.

(** Computations: they read and write the state and may raise. *)
Definition M (A : Type) : Type := State -> outcome A * State.

Definition raise {A} (e : exn) : M A := fun σ => (Raise e, σ).

#[export] Instance M_ret : MRet M := fun A a σ => (Return a, σ).
#[export] Instance M_bind : MBind M := fun A B k m σ =>
  match m σ with
  | (Return a, σ') => k a σ'
  | (Raise e, σ') => (Raise e, σ')
  end.
End Model.

Arguments cell F : clear implicits.
Arguments Row F : clear implicits.
Arguments DataFrame F : clear implicits.
Arguments selection F : clear implicits.
Arguments Scalar {A} a.
Arguments SubSeries {A}.
Arguments State F : clear implicits.
Arguments M F A : clear implicits.

(** ** The pandas and logging operations the function calls *)

Section Program.
Context {F : Type} {arith : PyFloat F}.

Abbreviation M := (M F).

(** Allocation of a new DataFrame object, and update of an existing
    one. *)
Definition alloc (df : DataFrame F) : M value := fun σ =>
  let l := fresh (dom (heap σ)) in
  (Return (VRef l), mkState (<[l := df]> (heap σ)) (trophic_levels σ) (warnings σ)).

Definition store (attr : string) (v : value) (df : DataFrame F) : M () := fun σ =>
  match v with
  | VRef l => (Return (), mkState (<[l := df]> (heap σ)) (trophic_levels σ) (warnings σ))
  | _ => (Raise (AttributeError attr), σ)
  end.

(** [isinstance(v, pd.DataFrame)] *)
Definition isinstance_DataFrame (v : value) : M bool := fun σ =>
  (Return match v with
          | VRef l => bool_decide (is_Some (heap σ !! l))
          | _ => false
          end, σ).

(** Attribute access on a DataFrame object. *)
Definition deref (attr : string) (v : value) : M (DataFrame F) := fun σ =>
  match v with
  | VRef l => match heap σ !! l with
              | Some df => (Return df, σ)
              | None => (Raise (AttributeError attr), σ)
              end
  | _ => (Raise (AttributeError attr), σ)
  end.

(** [df.columns] *)
Definition get_columns (v : value) : M (list string) :=
  df ← deref "columns" v; mret (columns df).

(** [label in labels] *)
Definition has_label (label : string) (labels : list string) : bool :=
  bool_decide (label ∈ labels).

(** The number of columns that carry [label]. *)
Definition label_count (label : string) (labels : list string) : nat :=
  length (filter (fun x => x = label) labels).

(** [required.issubset(labels)] *)
Definition issubset (required : gset string) (labels : list string) : bool :=
  bool_decide (required ⊆ list_to_set labels).

(** [df.copy()]: a new DataFrame object with the same labels and data. *)
Definition df_copy (v : value) : M value :=
  df ← deref "copy" v; alloc df.

(** [df["catch_kg"]] *)
Definition getitem_catch_kg (v : value) : M (selection F) :=
  df ← deref "__getitem__" v;
  match label_count "catch_kg" (columns df) with
  | 0 => raise (KeyError "catch_kg")
  | 1 => mret (OneColumn (catch_kg <$> rows df))
  | _ => mret SubFrame
  end.

(** [pd.to_numeric(arg, errors="coerce")]: in a Series, what cannot be
    parsed becomes NaN; a DataFrame is refused. *)
Definition to_numeric_coerce (arg : selection F) : M (list (cell F)) :=
  match arg with
  | OneColumn col =>
      mret ((fun c => match c with
                      | Num x => Num x
                      | Unparsable _ => Num fnan
                      end) <$> col)
  | SubFrame =>
      raise (TypeError [FStr "arg must be a list, tuple, 1-d array, or Series"])
  end.

(** [df["catch_kg"] = col]: the object [v] refers to is updated in
    place. *)
Definition setitem_catch_kg (v : value) (col : list (cell F)) : M () :=
  df ← deref "__setitem__" v;
  let labels := if has_label "catch_kg" (columns df)
                then columns df else (columns df ++ ["catch_kg"])%list in
  store "__setitem__" v
    (mkDataFrame labels (zip_with (fun r c => mkRow (species_name r) c) (rows df) col)).

(** [df.iterrows()]: each row comes as a Series indexed by the
    column labels. *)
Definition iterrows (v : value) : M (list (list string * Row F)) :=
  df ← deref "iterrows" v; mret ((fun r => (columns df, r)) <$> rows df).

(** [row["species_name"]] and [row["catch_kg"]] *)
Definition row_species_name (row : list string * Row F) : M (entry string) :=
  match label_count "species_name" row.1 with
  | 0 => raise (KeyError "species_name")
  | 1 => mret (Scalar (species_name row.2))
  | _ => mret SubSeries
  end.

Definition row_catch_kg (row : list string * Row F) : M (entry (cell F)) :=
  match label_count "catch_kg" row.1 with
  | 0 => raise (KeyError "catch_kg")
  | 1 => mret (Scalar (catch_kg row.2))
  | _ => mret SubSeries
  end.

(** [pd.isna(c)] *)
Definition isna (c : cell F) : bool :=
  match c with
  | Num x => fisnan x
  | Unparsable _ => false
  end.

(** [c <= 0], [tl * c] and [acc + c] for a cell [c]: a string operand
    is a type error. *)
Definition unsupported (op : string) : exn :=
  TypeError [FStr "unsupported operand type(s) for "; FStr op].

Definition cell_le_zero (c : cell F) : M bool :=
  match c with
  | Num x => mret (fleb x fzero)
  | Unparsable _ => raise (unsupported "<=")
  end.

Definition mul_cell (tl : F) (c : cell F) : M F :=
  match c with
  | Num x => mret (fmul tl x)
  | Unparsable _ => raise (unsupported "*")
  end.

Definition add_cell (acc : F) (c : cell F) : M F :=
  match c with
  | Num x => mret (fadd acc x)
  | Unparsable _ => raise (unsupported "+")
  end.

(** [x / y] on Python floats. *)
Definition truediv (x y : F) : M F :=
  if feqb y fzero
  then raise (ZeroDivisionError [FStr "float division by zero"])
  else mret (fdiv x y).

(** A Series cannot be hashed. *)
Definition unhashable : exn :=
  TypeError [FStr "'Series' objects are mutable, thus they cannot be hashed"].

(** The test [pd.isna(catch) or catch <= 0] of line 70.  On a Series
    [pd.isna] gives a Series, which has no truth value. *)
Definition skip_test (catch : entry (cell F)) : M bool :=
  match catch with
  | Scalar c => if isna c then mret true else cell_le_zero c
  | SubSeries => raise (ValueError [FStr "The truth value of a Series is ambiguous"])
  end.

(** [species in TROPHIC_LEVELS] and [TROPHIC_LEVELS[species]], on the
    dict the global is bound to at the time of the call.  Both hash
    the key. *)
Definition in_TROPHIC_LEVELS (species : entry string) : M bool := fun σ =>
  match species with
  | Scalar s => (Return (bool_decide (is_Some (trophic_levels σ !! s))), σ)
  | SubSeries => (Raise unhashable, σ)
  end.

Definition getitem_TROPHIC_LEVELS (species : entry string) : M F := fun σ =>
  match species with
  | Scalar s => match trophic_levels σ !! s with
                | Some tl => (Return tl, σ)
                | None => (Raise (KeyError s), σ)
                end
  | SubSeries => (Raise unhashable, σ)
  end.

(** [tl * catch] and [total_catch + catch] for what [row["catch_kg"]]
    gave. *)
Definition mul_entry (tl : F) (catch : entry (cell F)) : M F :=
  match catch with
  | Scalar c => mul_cell tl c
  | SubSeries => raise (unsupported "*")
  end.

Definition add_entry (acc : F) (catch : entry (cell F)) : M F :=
  match catch with
  | Scalar c => add_cell acc c
  | SubSeries => raise (unsupported "+")
  end.

(** [set(xs)]: every element is hashed. *)
Fixpoint scalars (xs : list (entry string)) : option (list string) :=
  match xs with
  | [] => Some []
  | Scalar s :: rest => cons s <$> scalars rest
  | SubSeries :: _ => None
  end.

Definition py_set (xs : list (entry string)) : M (gset string) :=
  match scalars xs with
  | Some names => mret (list_to_set names)
  | None => raise unhashable
  end.

(** [logger.warning(msg)] *)
Definition logger_warning (msg : message) : M () := fun σ =>
  (Return (), mkState (heap σ) (trophic_levels σ) (warnings σ ++ [msg])%list).
End Program.

(** ** [TROPHIC_LEVELS] *)

Definition TROPHIC_LEVELS : gmap string float :=
  list_to_map [
    ("Atlantic cod", 3.5%float);
    ("Pacific sardine", 2.8%float);
    ("Bluefin tuna", 4.2%float);
    ("Anchovy", 2.7%float);
    ("Mackerel", 3.2%float);
    ("Squid", 3.0%float);
    ("Shrimp", 2.5%float);
    ("Lobster", 2.9%float);
    ("Salmon", 3.8%float);
    ("Halibut", 3.6%float);
    ("Haddock", 3.3%float);
    ("Plaice", 3.1%float);
    ("Herring", 2.9%float);
    ("Swordfish", 4.4%float);
    ("Mahi-mahi", 3.7%float)
  ].

(** ** [calculate_mtl] *)

Section CalculateMtl.
Context {F : Type} {arith : PyFloat F}.

Abbreviation M := (M F).

(** The local variables the loop updates. *)
Record Locals : Type := mkLocals {
  total_catch : F;
  weighted_sum : F;
  missing_species : list (entry string);
}.

(** The body of the [for] loop, lines 68 to 78. *)
Definition loop_body (row : list string * Row F) (vars : Locals) : M Locals :=
  species ← row_species_name row;
  catch ← row_catch_kg row;
  skip ← skip_test catch;
  if skip : bool then mret vars
  else
    known ← in_TROPHIC_LEVELS species;
    if known : bool then
      tl ← getitem_TROPHIC_LEVELS species;
      term ← mul_entry tl catch;
      let weighted_sum' := fadd (weighted_sum vars) term in
      total_catch' ← add_entry (total_catch vars) catch;
      mret (mkLocals total_catch' weighted_sum' (missing_species vars))
    else
      mret (mkLocals (total_catch vars) (weighted_sum vars)
              (missing_species vars ++ [species])%list).

Fixpoint for_rows (rws : list (list string * Row F)) (vars : Locals) : M Locals :=
  match rws with
  | [] => mret vars
  | row :: rest => vars' ← loop_body row vars; for_rows rest vars'
  end.

Definition required_cols : gset string := {[ "species_name"; "catch_kg" ]}.

Definition missing_warning (missing : list string) : message :=
  [FStr "Species not found in trophic level dictionary: ";
   FSet (list_to_set missing);
   FStr ". ";
   FStr "These species are excluded from MTL calculation."].

(** Lines 80 to 84: the warning, with [set(missing_species)] formatted
    into it. *)
Definition warn_missing (missing : list (entry string)) : M () :=
  names ← py_set missing;
  logger_warning [FStr "Species not found in trophic level dictionary: ";
                  FSet names;
                  FStr ". ";
                  FStr "These species are excluded from MTL calculation."].

Definition calculate_mtl (catch_df : value) : M F :=
  is_df ← isinstance_DataFrame catch_df;
  if negb is_df then raise (TypeError [FStr "Input must be a pandas DataFrame"])
  else
    labels ← get_columns catch_df;
    if negb (issubset required_cols labels)
    then raise (ValueError [FStr "DataFrame must contain columns "; FSet required_cols])
    else
      catch_df ← df_copy catch_df;
      col ← getitem_catch_kg catch_df;
      numeric ← to_numeric_coerce col;
      setitem_catch_kg catch_df numeric;;
      rws ← iterrows catch_df;
      vars ← for_rows rws (mkLocals fzero fzero []);
      (if bool_decide (missing_species vars ≠ [])
       then warn_missing (missing_species vars)
       else mret ());;
      if feqb (total_catch vars) fzero
      then raise (ValueError
                    [FStr "No valid catch data with known trophic levels. ";
                     FStr "Cannot compute MTL."])
      else
        mtl ← truediv (weighted_sum vars) (total_catch vars);
        mret mtl.
End CalculateMtl.

Arguments Locals F : clear implicits.

(** ** The loop as a fold

    For a DataFrame that passes the two checks, the function copies it,
    coerces the copy's [catch_kg] column and folds [step] over the
    rows.  [scan] and [finish] are used to state this; the theorems
    below are about [calculate_mtl] itself. *)

Section Run.
Context {F : Type} {arith : PyFloat F}.

(** The number [pd.to_numeric] leaves in a cell. *)
Definition coerced (c : cell F) : F :=
  match c with
  | Num x => x
  | Unparsable _ => fnan
  end.

Definition coerce_row (r : Row F) : Row F :=
  mkRow (species_name r) (Num (coerced (catch_kg r))).

(** The test of line 70. *)
Definition skipped (x : F) : bool := fisnan x || fleb x fzero.

Definition step (table : gmap string F) (vars : Locals F) (r : Row F) : Locals F :=
  let x := coerced (catch_kg r) in
  if skipped x then vars
  else match table !! species_name r with
       | Some tl =>
           mkLocals (fadd (total_catch vars) x)
                    (fadd (weighted_sum vars) (fmul tl x))
                    (missing_species vars)
       | None =>
           mkLocals (total_catch vars) (weighted_sum vars)
                    (missing_species vars ++ [Scalar (species_name r)])%list
       end.

Definition scan (table : gmap string F) (rws : list (Row F)) (vars : Locals F) : Locals F :=
  foldl (step table) vars rws.

Definition no_valid_catch : exn :=
  ValueError [FStr "No valid catch data with known trophic levels. ";
              FStr "Cannot compute MTL."].

Definition to_numeric_refused : exn :=
  TypeError [FStr "arg must be a list, tuple, 1-d array, or Series"].

Definition finish (vars : Locals F) : outcome F :=
  if feqb (total_catch vars) fzero then Raise no_valid_catch
  else Return (fdiv (weighted_sum vars) (total_catch vars)).

Definition emitted (vars : Locals F) : list message :=
  match scalars (missing_species vars) with
  | Some (name :: names) => [missing_warning (name :: names)]
  | _ => []
  end.

Definition init : Locals F := mkLocals fzero fzero [].

(** The rows whose species the loop records as missing: the catch
    passes the test of line 70 and the species is not a key. *)
Definition unmatched (table : gmap string F) (r : Row F) : bool :=
  negb (skipped (coerced (catch_kg r))) &&
  bool_decide (table !! species_name r = None).

(** The rows that add to the two sums. *)
Definition contributes (table : gmap string F) (r : Row F) : bool :=
  negb (skipped (coerced (catch_kg r))) &&
  bool_decide (is_Some (table !! species_name r)).

Fixpoint unmatched_names (table : gmap string F) (rws : list (Row F)) : list string :=
  match rws with
  | [] => []
  | r :: rest =>
      if unmatched table r then species_name r :: unmatched_names table rest
      else unmatched_names table rest
  end.

(** Whether some row passes the test of line 70. *)
Definition any_valid_catch (rws : list (Row F)) : bool :=
  existsb (fun r => negb (skipped (coerced (catch_kg r)))) rws.

Lemma issubset_required (labels : list string) :
  issubset required_cols labels =
  has_label "species_name" labels && has_label "catch_kg" labels.
Proof.
  unfold issubset, has_label, required_cols.
  rewrite <- bool_decide_and. apply bool_decide_ext.
  rewrite union_subseteq, !singleton_subseteq_l, !elem_of_list_to_set. reflexivity.
Qed.

Lemma label_count_has_label (label : string) (labels : list string) :
  label_count label labels <> 0 -> has_label label labels = true.
Proof.
  unfold label_count, has_label. intros Hc. apply bool_decide_eq_true.
  destruct (filter (fun x => x = label) labels) as [| x rest] eqn:E; [contradiction |].
  assert (Hx : x ∈ filter (fun x => x = label) labels) by (rewrite E; left).
  apply list_elem_of_filter in Hx as [-> Hx]. exact Hx.
Qed.

Lemma has_label_label_count (label : string) (labels : list string) :
  has_label label labels = true -> label_count label labels <> 0.
Proof.
  unfold label_count, has_label. intros Hc. apply bool_decide_eq_true in Hc.
  assert (Hx : label ∈ filter (fun x => x = label) labels)
    by (apply list_elem_of_filter; auto).
  destruct (filter (fun x => x = label) labels); [inversion Hx | discriminate].
Qed.

Lemma unique_labels_issubset (labels : list string) :
  label_count "species_name" labels = 1 ->
  label_count "catch_kg" labels = 1 ->
  issubset required_cols labels = true.
Proof.
  intros Hs Hc. rewrite issubset_required.
  rewrite !label_count_has_label by (rewrite ?Hs, ?Hc; discriminate). reflexivity.
Qed.

Lemma to_numeric_column (rws : list (Row F)) (σ : State F) :
  to_numeric_coerce (OneColumn (catch_kg <$> rws)) σ
  = (Return ((fun r => Num (coerced (catch_kg r))) <$> rws), σ).
Proof.
  unfold to_numeric_coerce, mret, M_ret. f_equal. f_equal.
  induction rws as [| r rws IH]; [reflexivity |].
  cbn. rewrite IH. f_equal. destruct (catch_kg r); reflexivity.
Qed.

Lemma zip_coerce (rws : list (Row F)) :
  zip_with (fun r c => mkRow (species_name r) c) rws
    ((fun r => Num (coerced (catch_kg r))) <$> rws) = coerce_row <$> rws.
Proof.
  induction rws as [| r rws IH]; [reflexivity |].
  cbn. rewrite IH. reflexivity.
Qed.

Lemma loop_body_step (labels : list string) (r : Row F) (vars : Locals F) (σ : State F) :
  label_count "species_name" labels = 1 ->
  label_count "catch_kg" labels = 1 ->
  loop_body (labels, coerce_row r) vars σ = (Return (step (trophic_levels σ) vars r), σ).
Proof.
  intros Hs Hc.
  unfold loop_body, row_species_name, row_catch_kg, step, skipped. cbn [fst snd].
  rewrite Hs, Hc.
  unfold mbind, M_bind, mret, M_ret, skip_test, cell_le_zero, mul_entry, add_entry,
    mul_cell, add_cell; cbn.
  destruct (fisnan (coerced (catch_kg r))); cbn; [reflexivity |].
  unfold mret, M_ret.
  destruct (fleb (coerced (catch_kg r)) fzero); cbn; [reflexivity |].
  destruct (trophic_levels σ !! species_name r) as [tl |] eqn:E.
  - rewrite bool_decide_true by eauto. rewrite E. reflexivity.
  - rewrite bool_decide_false by (intros [? ?]; discriminate). reflexivity.
Qed.

(** With a repeated [species_name] label the membership test of line
    73 raises on the first row whose catch passes line 70. *)
Lemma loop_body_repeated_species (labels : list string) (r : Row F)
    (vars : Locals F) (σ : State F) :
  2 <= label_count "species_name" labels ->
  label_count "catch_kg" labels = 1 ->
  loop_body (labels, coerce_row r) vars σ
  = (if skipped (coerced (catch_kg r)) then Return vars else Raise unhashable, σ).
Proof.
  intros Hs Hc.
  unfold loop_body, row_species_name, row_catch_kg, skipped. cbn [fst snd].
  rewrite Hc. destruct (label_count "species_name" labels) as [| [| n]]; try lia.
  unfold mbind, M_bind, mret, M_ret, skip_test, cell_le_zero; cbn.
  destruct (fisnan (coerced (catch_kg r))); cbn; [reflexivity |].
  unfold mret, M_ret.
  destruct (fleb (coerced (catch_kg r)) fzero); reflexivity.
Qed.

Lemma for_rows_scan (labels : list string) (rws : list (Row F)) :
  label_count "species_name" labels = 1 ->
  label_count "catch_kg" labels = 1 ->
  forall (vars : Locals F) (σ : State F),
    for_rows ((fun r => (labels, r)) <$> (coerce_row <$> rws)) vars σ
    = (Return (scan (trophic_levels σ) rws vars), σ).
Proof.
  intros Hs Hc. induction rws as [| r rws IH]; intros vars σ; [reflexivity |].
  cbn [fmap list_fmap for_rows]. unfold mbind, M_bind.
  change (list_fmap _ _ ?f ?l) with (f <$> l).
  rewrite loop_body_step by assumption. apply IH.
Qed.

Lemma for_rows_repeated_species (labels : list string) (rws : list (Row F)) :
  2 <= label_count "species_name" labels ->
  label_count "catch_kg" labels = 1 ->
  forall (vars : Locals F) (σ : State F),
    for_rows ((fun r => (labels, r)) <$> (coerce_row <$> rws)) vars σ
    = (if any_valid_catch rws then Raise unhashable else Return vars, σ).
Proof.
  intros Hs Hc. induction rws as [| r rws IH]; intros vars σ; [reflexivity |].
  cbn [fmap list_fmap for_rows any_valid_catch existsb]. unfold mbind, M_bind.
  change (list_fmap _ _ ?f ?l) with (f <$> l).
  rewrite loop_body_repeated_species by assumption.
  destruct (skipped (coerced (catch_kg r))); cbn [negb orb]; [apply IH | reflexivity].
Qed.

Lemma scalars_fmap (names : list string) :
  scalars (Scalar <$> names) = Some names.
Proof.
  induction names as [| s names IH]; [reflexivity |]. cbn. rewrite IH. reflexivity.
Qed.

Lemma missing_species_step (table : gmap string F) (vars : Locals F) (r : Row F) :
  missing_species (step table vars r)
  = (missing_species vars ++ (Scalar <$> unmatched_names table [r]))%list.
Proof.
  unfold step, unmatched_names, unmatched.
  destruct (skipped (coerced (catch_kg r))); cbn; [symmetry; apply app_nil_r |].
  destruct (table !! species_name r) as [tl |] eqn:E; cbn.
  - symmetry; apply app_nil_r.
  - reflexivity.
Qed.

Lemma unmatched_names_app (table : gmap string F) (a b : list (Row F)) :
  unmatched_names table (a ++ b)
  = (unmatched_names table a ++ unmatched_names table b)%list.
Proof.
  induction a as [| r a IH]; [reflexivity |].
  cbn. destruct (unmatched table r); cbn; rewrite IH; reflexivity.
Qed.

Lemma missing_species_scan (table : gmap string F) (rws : list (Row F)) :
  forall vars : Locals F,
    missing_species (scan table rws vars)
    = (missing_species vars ++ (Scalar <$> unmatched_names table rws))%list.
Proof.
  induction rws as [| r rws IH]; intros vars; [symmetry; apply app_nil_r |].
  change (scan table (r :: rws) vars) with (scan table rws (step table vars r)).
  rewrite IH, missing_species_step.
  change (r :: rws) with ([r] ++ rws)%list.
  rewrite unmatched_names_app, fmap_app, app_assoc. reflexivity.
Qed.

(** What the loop has recorded as missing, and what is logged for it. *)
Lemma missing_species_init (table : gmap string F) (rws : list (Row F)) :
  missing_species (scan table rws init) = Scalar <$> unmatched_names table rws.
Proof. rewrite missing_species_scan. reflexivity. Qed.

Lemma emitted_names (table : gmap string F) (rws : list (Row F)) :
  emitted (scan table rws init)
  = match unmatched_names table rws with
    | [] => []
    | name :: names => [missing_warning (name :: names)]
    end.
Proof.
  unfold emitted. rewrite missing_species_init, scalars_fmap. reflexivity.
Qed.

(** The state a call leaves behind: the heap gains the coerced copy,
    the logger gains what [emitted] says. *)
Definition after (σ : State F) (df : DataFrame F) (vars : Locals F) : State F :=
  mkState (<[fresh (dom (heap σ)) := mkDataFrame (columns df) (coerce_row <$> rows df)]>
             (heap σ))
          (trophic_levels σ)
          (warnings σ ++ emitted vars).

(** The state when [pd.to_numeric] refuses its argument: the heap has
    gained the copy, as it was made. *)
Definition copied (σ : State F) (df : DataFrame F) : State F :=
  mkState (<[fresh (dom (heap σ)) := df]> (heap σ)) (trophic_levels σ) (warnings σ).

Lemma calculate_mtl_run (σ : State F) (l : loc) (df : DataFrame F) :
  heap σ !! l = Some df ->
  label_count "species_name" (columns df) = 1 ->
  label_count "catch_kg" (columns df) = 1 ->
  let vars := scan (trophic_levels σ) (rows df) init in
  calculate_mtl (VRef l) σ = (finish vars, after σ df vars).
Proof.
  intros Hl Hs Hc vars.
  pose proof (unique_labels_issubset _ Hs Hc) as Hsub.
  pose proof (label_count_has_label "catch_kg" (columns df)) as Hhas.
  rewrite Hc in Hhas. specialize (Hhas ltac:(discriminate)).
  unfold calculate_mtl, isinstance_DataFrame, mbind, M_bind.
  rewrite Hl. rewrite bool_decide_true by eauto. cbn [negb].
  unfold get_columns, deref, mbind, M_bind, mret, M_ret. rewrite Hl.
  rewrite Hsub. cbn [negb].
  unfold df_copy, deref, alloc, mbind, M_bind. rewrite Hl.
  set (l' := fresh (dom (heap σ))).
  unfold getitem_catch_kg, deref, mbind, M_bind. cbn [heap].
  rewrite lookup_insert_eq. rewrite Hc. unfold mret, M_ret.
  rewrite to_numeric_column.
  unfold setitem_catch_kg, deref, store, mbind, M_bind. cbn [heap].
  rewrite lookup_insert_eq. rewrite Hhas. cbn [heap columns rows trophic_levels warnings].
  rewrite insert_insert_eq, zip_coerce.
  unfold iterrows, deref, mbind, M_bind, mret, M_ret. cbn [heap].
  rewrite lookup_insert_eq. cbn [columns rows].
  rewrite for_rows_scan by assumption. cbn [trophic_levels].
  change (scan (trophic_levels σ) (rows df) _) with vars.
  unfold after, finish, truediv, warn_missing, py_set, logger_warning, mbind, M_bind.
  fold l'.
  rewrite (emitted_names (trophic_levels σ) (rows df) : emitted vars = _).
  rewrite (missing_species_init (trophic_levels σ) (rows df)
           : missing_species vars = _).
  destruct (unmatched_names (trophic_levels σ) (rows df)) as [| s rest] eqn:Em.
  - cbn [fmap list_fmap].
    rewrite bool_decide_false by (intros Hne; apply Hne; reflexivity).
    rewrite app_nil_r.
    destruct (feqb (total_catch vars) fzero) eqn:Ez; cbn; rewrite ?Ez; reflexivity.
  - rewrite bool_decide_true by discriminate.
    rewrite scalars_fmap. unfold mret, M_ret. cbn [heap trophic_levels warnings].
    destruct (feqb (total_catch vars) fzero) eqn:Ez; cbn; rewrite ?Ez; reflexivity.
Qed.

(** A repeated [catch_kg] label: [pd.to_numeric] refuses the DataFrame
    that [catch_df["catch_kg"]] gives, at line 61. *)
Lemma calculate_mtl_repeated_catch (σ : State F) (l : loc) (df : DataFrame F) :
  heap σ !! l = Some df ->
  issubset required_cols (columns df) = true ->
  2 <= label_count "catch_kg" (columns df) ->
  calculate_mtl (VRef l) σ = (Raise to_numeric_refused, copied σ df).
Proof.
  intros Hl Hsub Hc.
  unfold calculate_mtl, isinstance_DataFrame, mbind, M_bind.
  rewrite Hl. rewrite bool_decide_true by eauto. cbn [negb].
  unfold get_columns, deref, mbind, M_bind, mret, M_ret. rewrite Hl.
  rewrite Hsub. cbn [negb].
  unfold df_copy, deref, alloc, mbind, M_bind. rewrite Hl.
  unfold getitem_catch_kg, deref, mbind, M_bind. cbn [heap].
  rewrite lookup_insert_eq.
  destruct (label_count "catch_kg" (columns df)) as [| [| n]]; try lia.
  reflexivity.
Qed.

(** A repeated [species_name] label, with [catch_kg] occurring once:
    the loop raises at the first row that passes line 70; when there
    is none, both sums are still zero after the loop. *)
Lemma calculate_mtl_repeated_species (σ : State F) (l : loc) (df : DataFrame F) :
  heap σ !! l = Some df ->
  2 <= label_count "species_name" (columns df) ->
  label_count "catch_kg" (columns df) = 1 ->
  calculate_mtl (VRef l) σ
  = (if any_valid_catch (rows df) then Raise unhashable else finish init,
     after σ df init).
Proof.
  intros Hl Hs Hc.
  assert (Hsub : issubset required_cols (columns df) = true).
  { rewrite issubset_required.
    rewrite !label_count_has_label by (rewrite ?Hc; lia). reflexivity. }
  pose proof (label_count_has_label "catch_kg" (columns df)) as Hhas.
  rewrite Hc in Hhas. specialize (Hhas ltac:(discriminate)).
  unfold calculate_mtl, isinstance_DataFrame, mbind, M_bind.
  rewrite Hl. rewrite bool_decide_true by eauto. cbn [negb].
  unfold get_columns, deref, mbind, M_bind, mret, M_ret. rewrite Hl.
  rewrite Hsub. cbn [negb].
  unfold df_copy, deref, alloc, mbind, M_bind. rewrite Hl.
  set (l' := fresh (dom (heap σ))).
  unfold getitem_catch_kg, deref, mbind, M_bind. cbn [heap].
  rewrite lookup_insert_eq. rewrite Hc. unfold mret, M_ret.
  rewrite to_numeric_column.
  unfold setitem_catch_kg, deref, store, mbind, M_bind. cbn [heap].
  rewrite lookup_insert_eq. rewrite Hhas. cbn [heap columns rows trophic_levels warnings].
  rewrite insert_insert_eq, zip_coerce.
  unfold iterrows, deref, mbind, M_bind, mret, M_ret. cbn [heap].
  rewrite lookup_insert_eq. cbn [columns rows].
  rewrite for_rows_repeated_species by assumption.
  unfold after, emitted, init. cbn [missing_species scalars]. rewrite app_nil_r. fold l'.
  destruct (any_valid_catch (rows df)); [reflexivity |].
  cbn [missing_species].
  rewrite bool_decide_false by (intros Hne; apply Hne; reflexivity).
  unfold finish, truediv. cbn [total_catch weighted_sum].
  destruct (feqb fzero fzero) eqn:Ez; cbn; rewrite ?Ez; reflexivity.
Qed.

Lemma calculate_mtl_not_frame (σ : State F) (v : value) :
  (forall l, v = VRef l -> heap σ !! l = None) ->
  calculate_mtl v σ
  = (Raise (TypeError [FStr "Input must be a pandas DataFrame"]), σ).
Proof.
  intros Hv. unfold calculate_mtl, isinstance_DataFrame, mbind, M_bind.
  destruct v as [| n | s | items | l]; try reflexivity.
  rewrite (Hv l eq_refl).
  rewrite bool_decide_false by (intros [? ?]; discriminate). reflexivity.
Qed.

Lemma calculate_mtl_missing_column (σ : State F) (l : loc) (df : DataFrame F) :
  heap σ !! l = Some df ->
  issubset required_cols (columns df) = false ->
  calculate_mtl (VRef l) σ
  = (Raise (ValueError [FStr "DataFrame must contain columns "; FSet required_cols]), σ).
Proof.
  intros Hl Hsub. unfold calculate_mtl, isinstance_DataFrame, mbind, M_bind.
  rewrite Hl. rewrite bool_decide_true by eauto. cbn [negb].
  unfold get_columns, deref, mbind, M_bind, mret, M_ret. rewrite Hl, Hsub.
  reflexivity.
Qed.
End Run.

(** ** Binary64 facts

    What the proofs need to know about float addition and comparison:
    a sum of positive floats is positive, so the accumulated catch of
    at least one contributing row is never zero.  The facts are proved
    on [SpecFloat]'s operations and carried to primitive floats by
    the specification of the primitives. *)

Module Binary64.
Local Open Scope Z_scope.


Lemma digits2_pos_lower (p : positive) :
  2 ^ (Zpos (digits2_pos p) - 1) <= Zpos p.
Proof.
  induction p as [p IH | p IH |]; simpl digits2_pos.
  - rewrite Pos2Z.inj_succ.
    replace (Z.succ (Zpos (digits2_pos p)) - 1) with (Z.succ (Zpos (digits2_pos p) - 1)) by lia.
    rewrite Z.pow_succ_r by lia. lia.
  - rewrite Pos2Z.inj_succ.
    replace (Z.succ (Zpos (digits2_pos p)) - 1) with (Z.succ (Zpos (digits2_pos p) - 1)) by lia.
    rewrite Z.pow_succ_r by lia. lia.
  - simpl. lia.
Qed.

Lemma shr_1_m (mrs : shr_record) :
  0 <= shr_m mrs -> shr_m (shr_1 mrs) = shr_m mrs / 2.
Proof.
  destruct mrs as [m r s]; simpl. intros Hm.
  destruct m as [| p | p]; try lia.
  - reflexivity.
  - destruct p as [p | p |]; cbn [shr_m].
    + apply Z.div_unique with (r := 1); lia.
    + apply Z.div_unique with (r := 0); lia.
    + reflexivity.
Qed.

Lemma iter_pos_shr_m (p : positive) : forall mrs,
  0 <= shr_m mrs ->
  shr_m (SpecFloat.iter_pos shr_1 p mrs) = shr_m mrs / 2 ^ Zpos p.
Proof.
  assert (Hnn : forall q mrs, 0 <= shr_m mrs -> 0 <= shr_m mrs / 2 ^ Zpos q).
  { intros q mrs H. apply Z.div_pos; [assumption | apply Z.pow_pos_nonneg; lia]. }
  induction p as [p IH | p IH |]; intros mrs Hm; simpl SpecFloat.iter_pos.
  - assert (H1 : 0 <= shr_m (shr_1 mrs)).
    { rewrite shr_1_m by assumption. apply Z.div_pos; lia. }
    assert (H2 : 0 <= shr_m (SpecFloat.iter_pos shr_1 p (shr_1 mrs))).
    { rewrite IH by assumption. apply Hnn; assumption. }
    rewrite IH by assumption. rewrite IH by assumption. rewrite shr_1_m by assumption.
    rewrite !Z.div_div by (try apply Z.pow_pos_nonneg; lia).
    f_equal. replace (Zpos p~1) with (1 + Zpos p + Zpos p) by lia.
    rewrite !Z.pow_add_r by lia. rewrite Z.pow_1_r. ring.
  - assert (H2 : 0 <= shr_m (SpecFloat.iter_pos shr_1 p mrs)).
    { rewrite IH by assumption. apply Hnn; assumption. }
    rewrite IH by assumption. rewrite IH by assumption.
    rewrite !Z.div_div by (try apply Z.pow_pos_nonneg; lia).
    f_equal. replace (Zpos p~0) with (Zpos p + Zpos p) by lia.
    rewrite !Z.pow_add_r by lia. ring.
  - rewrite shr_1_m by assumption. reflexivity.
Qed.

Lemma shr_record_of_loc_m m l : shr_m (shr_record_of_loc m l) = m.
Proof. destruct l as [| []]; reflexivity. Qed.

(** Shifting a positive mantissa to its canonical exponent leaves it
    positive, provided the exponent is not below [emin]. *)
Lemma shr_fexp_pos (m e : Z) (l : location) :
  0 < m -> emin <= e ->
  0 < shr_m (fst (shr_fexp prec emax m e l)) /\
  emin <= snd (shr_fexp prec emax m e l).
Proof.
  intros Hm He. unfold shr_fexp, shr.
  destruct m as [| p | p]; try lia.
  cbn [Zdigits2].
  set (d := Zpos (digits2_pos p)).
  destruct (fexp prec emax (d + e) - e) as [| n | n] eqn:Hn; cbn [fst snd];
    rewrite ?shr_record_of_loc_m; try (split; lia).
  rewrite iter_pos_shr_m by (rewrite shr_record_of_loc_m; lia).
  rewrite shr_record_of_loc_m.
  unfold fexp in Hn.
  assert (Hd : Zpos n = d - prec) by lia.
  split; [| lia].
  pose proof (digits2_pos_lower p) as Hlow. fold d in Hlow.
  apply Z.div_str_pos. split; [apply Z.pow_pos_nonneg; lia |].
  eapply Z.le_trans; [| exact Hlow].
  apply Z.pow_le_mono_r; [lia |]. rewrite Hd. unfold prec. lia.
Qed.

Lemma round_nearest_even_pos m l : 0 < m -> 0 < round_nearest_even m l.
Proof. intros H. destruct l as [| []]; simpl; try destruct (Z.even m); lia. Qed.

Definition SFpositive (x : spec_float) : bool :=
  match x with
  | S754_finite false _ _ | S754_infinity false => true
  | _ => false
  end.

Lemma binary_round_aux_pos m e l :
  0 < m -> emin <= e ->
  SFpositive (binary_round_aux prec emax false m e l) = true.
Proof.
  intros Hm He. unfold binary_round_aux.
  destruct (shr_fexp_pos m e l Hm He) as [H1 H2].
  destruct (shr_fexp prec emax m e l) as [mrs' e'] eqn:E1. cbn [fst snd] in H1, H2.
  pose proof (round_nearest_even_pos _ (loc_of_shr_record mrs') H1) as H3.
  destruct (shr_fexp_pos _ e' loc_Exact H3 H2) as [H4 H5].
  destruct (shr_fexp prec emax _ e' loc_Exact) as [mrs'' e''] eqn:E2. cbn [fst snd] in H4, H5.
  destruct (shr_m mrs'') as [| q | q]; try lia.
  destruct (e'' <=? emax - prec); reflexivity.
Qed.

Lemma valid_emin s m e :
  valid_binary (S754_finite s m e) = true -> emin <= e.
Proof.
  unfold valid_binary, SpecFloat.valid_binary, bounded, canonical_mantissa, fexp.
  intros H. apply andb_prop in H as [H _]. apply Z.eqb_eq in H. lia.
Qed.

Lemma shl_align_exp m e e' : snd (shl_align m e e') = Z.min e e'.
Proof.
  unfold shl_align. destruct (e' - e) eqn:E; cbn [snd]; lia.
Qed.

Lemma binary_round_pos m e :
  emin <= e -> SFpositive (binary_round prec emax false m e) = true.
Proof.
  intros He. unfold binary_round.
  pose proof (shl_align_exp m e (fexp prec emax (Zpos (digits2_pos m) + e))) as Hs.
  destruct (shl_align m e _) as [mz ez]. cbn [snd] in Hs.
  apply binary_round_aux_pos; [lia |].
  rewrite Hs. unfold fexp. lia.
Qed.

Lemma SF64add_pos x y :
  valid_binary x = true -> valid_binary y = true ->
  SFpositive x = true -> SFpositive y = true ->
  SFpositive (SF64add x y) = true.
Proof.
  intros Vx Vy Px Py.
  destruct x as [sx | sx | | sx mx ex]; try discriminate Px;
  destruct y as [sy | sy | | sy my ey]; try discriminate Py;
  destruct sx; try discriminate Px; destruct sy; try discriminate Py;
  try reflexivity.
  unfold SF64add, SFadd. cbn [cond_Zopp].
  apply valid_emin in Vx, Vy.
  rewrite <- Pos2Z.inj_add. cbn [binary_normalize].
  apply binary_round_pos. lia.
Qed.

Lemma SF64add_zero_pos y :
  SFpositive y = true -> SFpositive (SF64add (S754_zero false) y) = true.
Proof.
  destruct y as [sy | sy | | sy my ey]; try discriminate; destruct sy; try discriminate; reflexivity.
Qed.

(** [0 < x] on a primitive float, read on its specification. *)
Lemma Prim2SF_zero : Prim2SF 0%float = S754_zero false.
Proof. reflexivity. Qed.

Lemma SFcompare_refl_finite s m e :
  SFcompare (S754_finite s m e) (S754_finite s m e) = Some Eq.
Proof.
  cbn. rewrite Z.compare_refl, Pos.compare_cont_refl. destruct s; reflexivity.
Qed.

Lemma ltb_zero_spec (x : float) :
  (0 <? x)%float = SFpositive (Prim2SF x).
Proof.
  rewrite FloatAxioms.ltb_spec, Prim2SF_zero.
  destruct (Prim2SF x) as [s | s | | s m e]; try destruct s; reflexivity.
Qed.

(** The test of line 70, [pd.isna(catch) or catch <= 0], is the
    negation of [0 < catch]. *)
Lemma skip_test (x : float) :
  PrimFloat.is_nan x || (x <=? 0)%float = negb (0 <? x)%float.
Proof.
  rewrite ltb_zero_spec. unfold PrimFloat.is_nan.
  rewrite FloatAxioms.eqb_spec, FloatAxioms.leb_spec, Prim2SF_zero. unfold SFeqb, SFleb.
  destruct (Prim2SF x) as [s | s | | s m e];
    try reflexivity; try (destruct s; reflexivity).
  rewrite SFcompare_refl_finite. destruct s; reflexivity.
Qed.

Lemma add_pos (x y : float) :
  (0 <? x)%float = true -> (0 <? y)%float = true -> (0 <? x + y)%float = true.
Proof.
  intros Hx Hy. rewrite ltb_zero_spec in Hx, Hy |- *. rewrite FloatAxioms.add_spec.
  apply SF64add_pos; auto using Prim2SF_valid.
Qed.

Lemma add_zero_pos (y : float) :
  (0 <? y)%float = true -> (0 <? 0 + y)%float = true.
Proof.
  intros Hy. rewrite ltb_zero_spec in Hy |- *. rewrite FloatAxioms.add_spec, Prim2SF_zero.
  apply SF64add_zero_pos, Hy.
Qed.

Lemma pos_not_zero (x : float) :
  (0 <? x)%float = true -> (x =? 0)%float = false.
Proof.
  intros Hx. rewrite ltb_zero_spec in Hx. rewrite FloatAxioms.eqb_spec, Prim2SF_zero.
  destruct (Prim2SF x) as [s | s | | s m e]; try destruct s; try discriminate; reflexivity.
Qed.

End Binary64.

(** ** Facts about the fold *)

Section ScanFacts.
Context {F : Type} {arith : PyFloat F}.

Lemma scan_app (table : gmap string F) (a b : list (Row F)) (vars : Locals F) :
  scan table (a ++ b) vars = scan table b (scan table a vars).
Proof. apply foldl_app. Qed.

Lemma step_skipped (table : gmap string F) (vars : Locals F) (r : Row F) :
  skipped (coerced (catch_kg r)) = true -> step table vars r = vars.
Proof. intros Hs. unfold step. rewrite Hs. reflexivity. Qed.

Lemma step_unmatched (table : gmap string F) (vars : Locals F) (r : Row F) :
  unmatched table r = true ->
  step table vars r
  = mkLocals (total_catch vars) (weighted_sum vars)
             (missing_species vars ++ [Scalar (species_name r)]).
Proof.
  unfold unmatched, step. intros Hu.
  apply andb_prop in Hu as [Hs Hn].
  apply negb_true_iff in Hs. apply bool_decide_eq_true in Hn.
  rewrite Hs, Hn. reflexivity.
Qed.

Lemma unmatched_names_nil (table : gmap string F) (rws : list (Row F)) :
  (forall r, r ∈ rws -> unmatched table r = false) ->
  unmatched_names table rws = [].
Proof.
  induction rws as [| r rws IH]; intros Hall; [reflexivity |].
  cbn. rewrite (Hall r) by (left; reflexivity).
  apply IH. intros r' Hr'. apply Hall. right. exact Hr'.
Qed.

(** A row that does not contribute leaves both sums alone. *)
Lemma sums_step_idle (table : gmap string F) (vars : Locals F) (r : Row F) :
  contributes table r = false ->
  total_catch (step table vars r) = total_catch vars /\
  weighted_sum (step table vars r) = weighted_sum vars.
Proof.
  unfold contributes, step. intros Hc.
  destruct (skipped (coerced (catch_kg r))); [auto |].
  destruct (table !! species_name r) as [tl |] eqn:E; [| auto].
  rewrite bool_decide_true in Hc by eauto. discriminate.
Qed.

Lemma total_catch_idle (table : gmap string F) (rws : list (Row F)) :
  (forall r, r ∈ rws -> contributes table r = false) ->
  forall vars : Locals F, total_catch (scan table rws vars) = total_catch vars.
Proof.
  induction rws as [| r rws IH]; intros Hall vars; [reflexivity |].
  change (scan table (r :: rws) vars) with (scan table rws (step table vars r)).
  rewrite IH by (intros r' Hr'; apply Hall; right; exact Hr').
  apply sums_step_idle, Hall. left; reflexivity.
Qed.
End ScanFacts.

(** ** States and rows used to state the properties *)

(** The caller's DataFrame at [l] replaced by [df]. *)
Definition with_frame {F} (σ : State F) (l : loc) (df : DataFrame F) : State F :=
  mkState (<[l := df]> (heap σ)) (trophic_levels σ) (warnings σ).

(** [df] with one more row at the end. *)
Definition append_row {F} (df : DataFrame F) (r : Row F) : DataFrame F :=
  mkDataFrame (columns df) (rows df ++ [r]).

(** A catch value that is zero, negative, NaN or not a number at all. *)
Definition invalid_catch (c : cell float) : Prop :=
  match c with
  | Num x => (x <=? 0)%float = true \/ PrimFloat.is_nan x = true
  | Unparsable _ => True
  end.

(** A catch value that is a number greater than zero. *)
Definition positive_catch (c : cell float) : Prop :=
  match c with
  | Num x => (0 <? x)%float = true
  | Unparsable _ => False
  end.

Lemma invalid_catch_skipped (c : cell float) :
  invalid_catch c -> skipped (coerced c) = true.
Proof.
  destruct c as [x | s]; cbn; [| reflexivity].
  unfold skipped; cbn. intros [H | H]; rewrite H; [apply orb_true_r | reflexivity].
Qed.

Lemma positive_catch_skipped (c : cell float) :
  positive_catch c -> skipped (coerced c) = false.
Proof.
  destruct c as [x | s]; cbn; [| contradiction].
  intros H. unfold skipped; cbn. rewrite Binary64.skip_test, H. reflexivity.
Qed.

Lemma skipped_not_positive (c : cell float) :
  skipped (coerced c) = false -> positive_catch c.
Proof.
  destruct c as [x | s]; cbn; [| discriminate].
  unfold skipped; cbn. rewrite Binary64.skip_test. apply negb_false_iff.
Qed.

(** The state after the module is loaded, with one DataFrame built by
    the caller at location 0. *)
Definition state_with {F} (table : gmap string F) (df : DataFrame F) : State F :=
  mkState {[ 0%nat := df ]} table [].

(** [pd.DataFrame({"species_name": [...], "catch_kg": [...]})] *)
Definition frame {F} (rws : list (string * F)) : DataFrame F :=
  mkDataFrame ["species_name"; "catch_kg"]
    ((fun r => mkRow r.1 (Num r.2)) <$> rws).

(** ** What a call does, case by case *)

Section Calls.
Context {F : Type} {arith : PyFloat F}.

(** How the labels of a DataFrame make the call go: a required label
    is missing (line 57), [catch_kg] occurs more than once (line 61),
    [species_name] does (line 73), or each occurs once. *)
Inductive shape : Type :=
  | LabelMissing
  | RepeatedCatch
  | RepeatedSpecies
  | UniqueLabels.

Definition shape_of (labels : list string) : shape :=
  if negb (issubset required_cols labels) then LabelMissing
  else if (2 <=? label_count "catch_kg" labels)%nat then RepeatedCatch
  else if (2 <=? label_count "species_name" labels)%nat then RepeatedSpecies
  else UniqueLabels.

(** The outcome of a call on a DataFrame and what it logs: both depend
    on the table and the DataFrame only. *)
Definition outcome_of (table : gmap string F) (df : DataFrame F) : outcome F :=
  match shape_of (columns df) with
  | LabelMissing =>
      Raise (ValueError [FStr "DataFrame must contain columns "; FSet required_cols])
  | RepeatedCatch => Raise to_numeric_refused
  | RepeatedSpecies =>
      if any_valid_catch (rows df) then Raise unhashable else finish init
  | UniqueLabels => finish (scan table (rows df) init)
  end.

Definition logged (table : gmap string F) (df : DataFrame F) : list message :=
  match shape_of (columns df) with
  | UniqueLabels => emitted (scan table (rows df) init)
  | _ => []
  end.

(** The heap after the call: the working copy stays on it. *)
Definition heap_after (σ : State F) (df : DataFrame F) : gmap loc (DataFrame F) :=
  match shape_of (columns df) with
  | LabelMissing => heap σ
  | RepeatedCatch => <[fresh (dom (heap σ)) := df]> (heap σ)
  | _ => <[fresh (dom (heap σ)) := mkDataFrame (columns df) (coerce_row <$> rows df)]>
           (heap σ)
  end.

Lemma shape_unique (labels : list string) :
  shape_of labels = UniqueLabels <->
  label_count "species_name" labels = 1 /\ label_count "catch_kg" labels = 1.
Proof.
  unfold shape_of. rewrite issubset_required.
  destruct (has_label "species_name" labels) eqn:Hs;
    destruct (has_label "catch_kg" labels) eqn:Hc; cbn [andb negb].
  - apply has_label_label_count in Hs, Hc.
    destruct (Nat.leb_spec 2 (label_count "catch_kg" labels));
      [split; [discriminate | lia] |].
    destruct (Nat.leb_spec 2 (label_count "species_name" labels));
      [split; [discriminate | lia] |].
    split; [lia | reflexivity].
  - split; [discriminate |]. intros [_ H].
    rewrite label_count_has_label in Hc by (rewrite H; discriminate). discriminate.
  - split; [discriminate |]. intros [H _].
    rewrite label_count_has_label in Hs by (rewrite H; discriminate). discriminate.
  - split; [discriminate |]. intros [H _].
    rewrite label_count_has_label in Hs by (rewrite H; discriminate). discriminate.
Qed.

Lemma calculate_mtl_frame (σ : State F) (l : loc) (df : DataFrame F) :
  heap σ !! l = Some df ->
  calculate_mtl (VRef l) σ
  = (outcome_of (trophic_levels σ) df,
     mkState (heap_after σ df) (trophic_levels σ)
             (warnings σ ++ logged (trophic_levels σ) df)).
Proof.
  intros Hl. unfold outcome_of, logged, heap_after.
  destruct (shape_of (columns df)) eqn:Hshape.
  - rewrite (calculate_mtl_missing_column σ l df Hl).
    + rewrite app_nil_r. destruct σ; reflexivity.
    + unfold shape_of in Hshape.
      destruct (issubset required_cols (columns df)); [| reflexivity].
      cbn [negb] in Hshape.
      destruct (2 <=? label_count "catch_kg" (columns df))%nat; [discriminate |].
      destruct (2 <=? label_count "species_name" (columns df))%nat; discriminate.
  - unfold shape_of in Hshape.
    destruct (issubset required_cols (columns df)) eqn:Hsub; [| discriminate].
    cbn [negb] in Hshape.
    destruct (Nat.leb_spec 2 (label_count "catch_kg" (columns df))) as [Hc | Hc].
    + rewrite (calculate_mtl_repeated_catch σ l df Hl Hsub Hc).
      rewrite app_nil_r. reflexivity.
    + destruct (2 <=? label_count "species_name" (columns df))%nat; discriminate.
  - unfold shape_of in Hshape.
    destruct (issubset required_cols (columns df)) eqn:Hsub; [| discriminate].
    cbn [negb] in Hshape.
    destruct (Nat.leb_spec 2 (label_count "catch_kg" (columns df))) as [Hc | Hc];
      [discriminate |].
    destruct (Nat.leb_spec 2 (label_count "species_name" (columns df))) as [Hs | Hs];
      [| discriminate].
    rewrite issubset_required in Hsub. apply andb_prop in Hsub as [_ Hhas].
    apply has_label_label_count in Hhas.
    rewrite (calculate_mtl_repeated_species σ l df Hl Hs) by lia.
    unfold after, emitted, init. cbn [missing_species scalars]. reflexivity.
  - apply shape_unique in Hshape as [Hs Hc].
    apply (calculate_mtl_run σ l df Hl Hs Hc).
Qed.

Lemma call_outcome (σ : State F) (l : loc) (df : DataFrame F) :
  heap σ !! l = Some df ->
  (calculate_mtl (VRef l) σ).1 = outcome_of (trophic_levels σ) df.
Proof. intros Hl. rewrite (calculate_mtl_frame σ l df Hl). reflexivity. Qed.

Lemma call_warnings (σ : State F) (l : loc) (df : DataFrame F) :
  heap σ !! l = Some df ->
  warnings (calculate_mtl (VRef l) σ).2
  = (warnings σ ++ logged (trophic_levels σ) df)%list.
Proof. intros Hl. rewrite (calculate_mtl_frame σ l df Hl). reflexivity. Qed.

Lemma heap_after_keeps (σ : State F) (df0 : DataFrame F) (l : loc) (df : DataFrame F) :
  heap σ !! l = Some df -> heap_after σ df0 !! l = Some df.
Proof.
  intros Hl. unfold heap_after.
  assert (Hfresh : fresh (dom (heap σ)) <> l).
  { intros <-. apply (is_fresh (dom (heap σ))). apply elem_of_dom. eauto. }
  destruct (shape_of (columns df0)); rewrite ?lookup_insert_ne by exact Hfresh;
    exact Hl.
Qed.

(** The ways a call can go. *)
Lemma call_cases (σ : State F) (v : value) :
  calculate_mtl v σ
  = (Raise (TypeError [FStr "Input must be a pandas DataFrame"]), σ)
  \/ exists l df,
       v = VRef l /\ heap σ !! l = Some df /\
       calculate_mtl v σ
       = (outcome_of (trophic_levels σ) df,
          mkState (heap_after σ df) (trophic_levels σ)
                  (warnings σ ++ logged (trophic_levels σ) df)).
Proof.
  destruct v as [| n | s | items | l];
    try solve [left; apply calculate_mtl_not_frame; intros ? [=]].
  destruct (heap σ !! l) as [df |] eqn:Hl.
  - right. exists l, df.
    split; [reflexivity |]. split; [assumption |].
    apply (calculate_mtl_frame σ l df Hl).
  - left. apply calculate_mtl_not_frame. intros l' [= <-]. exact Hl.
Qed.

(** What is logged is empty or one missing-species warning. *)
Lemma logged_cases (table : gmap string F) (df : DataFrame F) :
  logged table df = [] \/
  exists names, names <> [] /\ logged table df = [missing_warning names].
Proof.
  unfold logged. destruct (shape_of (columns df)); auto.
  rewrite emitted_names.
  destruct (unmatched_names table (rows df)) as [| s rest]; [auto |].
  right. exists (s :: rest). split; [discriminate | reflexivity].
Qed.

Lemma any_valid_catch_app (a b : list (Row F)) :
  any_valid_catch (a ++ b) = any_valid_catch a || any_valid_catch b.
Proof. apply existsb_app. Qed.

Lemma outcome_append_skipped (table : gmap string F) (df : DataFrame F) (r : Row F) :
  skipped (coerced (catch_kg r)) = true ->
  outcome_of table (append_row df r) = outcome_of table df /\
  logged table (append_row df r) = logged table df.
Proof.
  intros Hskip. unfold outcome_of, logged, append_row. cbn [columns rows].
  destruct (shape_of (columns df)); try (split; reflexivity).
  - rewrite any_valid_catch_app. cbn [any_valid_catch existsb].
    rewrite Hskip. cbn [negb orb]. rewrite orb_false_r. split; reflexivity.
  - rewrite scan_app. cbn [scan foldl]. rewrite step_skipped by assumption.
    split; reflexivity.
Qed.

(** Each of the two labels the function reads occurs once. *)
Definition unique_labels (df : DataFrame F) : Prop :=
  label_count "species_name" (columns df) = 1 /\
  label_count "catch_kg" (columns df) = 1.

Lemma outcome_unique (table : gmap string F) (df : DataFrame F) :
  unique_labels df ->
  outcome_of table df = finish (scan table (rows df) init) /\
  logged table df = emitted (scan table (rows df) init).
Proof.
  intros Hu. apply shape_unique in Hu. unfold outcome_of, logged. rewrite Hu.
  split; reflexivity.
Qed.

Lemma shape_repeated (labels : list string) :
  (shape_of labels = RepeatedCatch -> 2 <= label_count "catch_kg" labels) /\
  (shape_of labels = RepeatedSpecies -> 2 <= label_count "species_name" labels).
Proof.
  unfold shape_of. destruct (negb (issubset required_cols labels)); [split; discriminate |].
  destruct (Nat.leb_spec 2 (label_count "catch_kg" labels)); [split; [auto | discriminate] |].
  destruct (Nat.leb_spec 2 (label_count "species_name" labels));
    split; try discriminate; auto.
Qed.

Lemma logged_no_unmatched (table : gmap string F) (df : DataFrame F) :
  (forall r, r ∈ rows df -> unmatched table r = false) ->
  logged table df = [].
Proof.
  intros Hall. unfold logged. destruct (shape_of (columns df)); try reflexivity.
  rewrite emitted_names, unmatched_names_nil by assumption. reflexivity.
Qed.
End Calls.

(** ** The specification's properties *)

Definition type_mismatch : exn :=
  TypeError [FStr "Input must be a pandas DataFrame"].

Definition missing_columns : exn :=
  ValueError [FStr "DataFrame must contain columns ";
              FSet {[ "species_name"; "catch_kg" ]}].

(** Scenario A of the specification, and the test
    [test_calculate_mtl_basic]. *)
Definition scenario_A : DataFrame float :=
  frame [("Atlantic cod", 100%float);
         ("Pacific sardine", 200%float);
         ("Bluefin tuna", 50%float)].

(** C3: the two structural failures.  A value that is not a DataFrame
    raises the TypeError; a DataFrame without the label [species_name]
    or without the label [catch_kg] raises the ValueError that names
    the two required columns.  The two are different exceptions, and in
    both cases the state is the one before the call: nothing was
    copied, no row was read, nothing was logged. *)
Theorem structural_failures :
  (forall (σ : State float) (v : value),
      (forall l, v = VRef l -> heap σ !! l = None) ->
      calculate_mtl v σ = (Raise type_mismatch, σ)) /\
  (forall (σ : State float) (l : loc) (df : DataFrame float),
      heap σ !! l = Some df ->
      ~ ("species_name" ∈ columns df /\ "catch_kg" ∈ columns df) ->
      calculate_mtl (VRef l) σ = (Raise missing_columns, σ)) /\
  type_mismatch <> missing_columns.
Proof.
  split; [| split].
  - intros σ v Hv. apply calculate_mtl_not_frame, Hv.
  - intros σ l df Hl Hcols. apply (calculate_mtl_missing_column σ l df Hl).
    rewrite issubset_required. apply not_true_is_false. intros Hb.
    apply Hcols. apply andb_prop in Hb as [Hs Hc].
    unfold has_label in Hs, Hc.
    split; eapply bool_decide_eq_true; eassumption.
  - discriminate.
Qed.

(** C4: appending a row whose catch is zero, negative, NaN or not a
    number changes neither the outcome of the call (the value returned
    or the exception raised) nor what is logged. *)
Theorem invalid_catch_row_ignored
    (σ : State float) (l : loc) (df : DataFrame float) (r : Row float) :
  heap σ !! l = Some df ->
  invalid_catch (catch_kg r) ->
  let σ' := with_frame σ l (append_row df r) in
  (calculate_mtl (VRef l) σ').1 = (calculate_mtl (VRef l) σ).1 /\
  warnings (calculate_mtl (VRef l) σ').2 = warnings (calculate_mtl (VRef l) σ).2.
Proof.
  intros Hl Hinv σ'.
  assert (Hl' : heap σ' !! l = Some (append_row df r)) by apply lookup_insert_eq.
  rewrite (call_outcome σ' l _ Hl'), (call_outcome σ l _ Hl).
  rewrite (call_warnings σ' l _ Hl'), (call_warnings σ l _ Hl).
  cbn [σ' with_frame trophic_levels warnings].
  destruct (outcome_append_skipped (trophic_levels σ) df r
              (invalid_catch_skipped _ Hinv)) as [-> ->].
  split; reflexivity.
Qed.

Lemma invalid_catch_row_ignored_witness :
  let σ := state_with TROPHIC_LEVELS scenario_A in
  let r := mkRow "Pacific sardine" (Num (-10)%float) in
  let σ' := with_frame σ 0%nat (append_row scenario_A r) in
  (calculate_mtl (VRef 0) σ').1 = (calculate_mtl (VRef 0) σ).1 /\
  warnings (calculate_mtl (VRef 0) σ').2 = warnings (calculate_mtl (VRef 0) σ).2.
Proof.
  apply (invalid_catch_row_ignored
           (state_with TROPHIC_LEVELS scenario_A) 0%nat scenario_A
           (mkRow "Pacific sardine" (Num (-10)%float))).
  - reflexivity.
  - left. reflexivity.
Defined.

(** C10: the catch test comes before the species lookup.  When every
    row with an unknown species has an invalid catch, the call logs
    nothing. *)
Theorem invalid_catch_hides_unknown_species
    (σ : State float) (l : loc) (df : DataFrame float) :
  heap σ !! l = Some df ->
  (forall r, r ∈ rows df ->
             trophic_levels σ !! species_name r = None ->
             invalid_catch (catch_kg r)) ->
  warnings (calculate_mtl (VRef l) σ).2 = warnings σ.
Proof.
  intros Hl Hall. rewrite (call_warnings σ l df Hl).
  rewrite logged_no_unmatched; [apply app_nil_r |].
  intros r Hr. unfold unmatched.
  destruct (trophic_levels σ !! species_name r) as [tl |] eqn:E.
  - rewrite bool_decide_false by discriminate. apply andb_false_r.
  - rewrite (invalid_catch_skipped _ (Hall r Hr E)). reflexivity.
Qed.

Lemma invalid_catch_hides_unknown_species_witness :
  warnings (calculate_mtl (VRef 0)
              (state_with TROPHIC_LEVELS
                 (frame [("Atlantic cod", 100%float); ("Unknown fish", 0%float)]))).2
  = [].
Proof.
  apply (invalid_catch_hides_unknown_species
           (state_with TROPHIC_LEVELS
              (frame [("Atlantic cod", 100%float); ("Unknown fish", 0%float)]))
           0%nat
           (frame [("Atlantic cod", 100%float); ("Unknown fish", 0%float)])).
  - reflexivity.
  - intros r Hr Hnone.
    apply list_elem_of_In in Hr. cbn in Hr.
    destruct Hr as [<- | [<- | []]].
    + vm_compute in Hnone. discriminate Hnone.
    + left. reflexivity.
Defined.

(** C5, as the specification states it, fails: an appended row with an
    unknown species and a catch of zero is dropped by the catch test
    before the lookup, so the call logs nothing. *)
Lemma unknown_species_zero_catch_not_reported :
  TROPHIC_LEVELS !! "Unknown fish" = None /\
  warnings (calculate_mtl (VRef 0)
              (state_with TROPHIC_LEVELS
                 (append_row scenario_A (mkRow "Unknown fish" (Num 0%float))))).2
  = [].
Proof. split; vm_compute; reflexivity. Qed.

(** C5, amended: for a DataFrame in which each of the two labels
    occurs once, appending a row whose species is not a key of the
    table and whose catch is a positive number leaves the outcome of
    the call unchanged, and the call logs exactly one warning: the
    text "Species not found in trophic level dictionary: " followed by
    the set of the unknown species of all rows with a positive
    catch. *)
Theorem unknown_species_row_reported
    (σ : State float) (l : loc) (df : DataFrame float) (r : Row float) :
  heap σ !! l = Some df ->
  unique_labels df ->
  trophic_levels σ !! species_name r = None ->
  positive_catch (catch_kg r) ->
  let σ' := with_frame σ l (append_row df r) in
  (calculate_mtl (VRef l) σ').1 = (calculate_mtl (VRef l) σ).1 /\
  warnings (calculate_mtl (VRef l) σ').2
  = (warnings σ ++
     [[FStr "Species not found in trophic level dictionary: ";
       FSet (list_to_set (unmatched_names (trophic_levels σ) (rows df))
             ∪ {[ species_name r ]});
       FStr ". ";
       FStr "These species are excluded from MTL calculation."]])%list.
Proof.
  intros Hl Huniq Hnone Hpos σ'.
  assert (Hu : unmatched (trophic_levels σ) r = true).
  { unfold unmatched. rewrite (positive_catch_skipped _ Hpos), Hnone.
    rewrite bool_decide_true by reflexivity. reflexivity. }
  assert (Hl' : heap σ' !! l = Some (append_row df r)) by apply lookup_insert_eq.
  rewrite (call_outcome σ' l _ Hl'), (call_outcome σ l _ Hl).
  rewrite (call_warnings σ' l _ Hl').
  cbn [σ' with_frame trophic_levels warnings].
  destruct (outcome_unique (trophic_levels σ) df Huniq) as [-> _].
  destruct (outcome_unique (trophic_levels σ) (append_row df r) Huniq) as [-> ->].
  cbn [append_row rows].
  rewrite scan_app. cbn [scan foldl]. rewrite step_unmatched by assumption.
  split; [reflexivity |].
  fold (scan (trophic_levels σ) (rows df ++ [r]) init).
  pose proof (emitted_names (trophic_levels σ) (rows df ++ [r])) as He.
  rewrite scan_app in He. cbn [scan foldl] in He.
  rewrite step_unmatched in He by assumption. rewrite He.
  rewrite unmatched_names_app. cbn [unmatched_names]. rewrite Hu.
  assert (Hset : forall names : list string,
             list_to_set (names ++ [species_name r])
             = list_to_set names ∪ ({[ species_name r ]} : gset string)).
  { intros names. rewrite list_to_set_app_L. cbn [list_to_set].
    rewrite (right_id_L ∅ (∪)). reflexivity. }
  destruct (unmatched_names (trophic_levels σ) (rows df)) as [| s rest];
    cbn [app]; unfold missing_warning.
  - rewrite <- (Hset []). reflexivity.
  - rewrite <- (Hset (s :: rest)). reflexivity.
Qed.

Lemma unknown_species_row_reported_witness :
  let σ := state_with TROPHIC_LEVELS scenario_A in
  let r := mkRow "Unknown fish" (Num 50%float) in
  let σ' := with_frame σ 0%nat (append_row scenario_A r) in
  (calculate_mtl (VRef 0) σ').1 = (calculate_mtl (VRef 0) σ).1 /\
  warnings (calculate_mtl (VRef 0) σ').2
  = [[FStr "Species not found in trophic level dictionary: ";
      FSet (list_to_set (unmatched_names TROPHIC_LEVELS (rows scenario_A))
            ∪ {[ "Unknown fish" ]});
      FStr ". ";
      FStr "These species are excluded from MTL calculation."]].
Proof.
  apply (unknown_species_row_reported
           (state_with TROPHIC_LEVELS scenario_A) 0%nat scenario_A
           (mkRow "Unknown fish" (Num 50%float))).
  - reflexivity.
  - split; reflexivity.
  - vm_compute. reflexivity.
  - reflexivity.
Defined.

(** The outcomes the specification allows: a float, or one of its
    three errors. *)
Definition specified_outcome (o : outcome float) : Prop :=
  match o with
  | Return _ => True
  | Raise e => e = type_mismatch \/ e = missing_columns \/ e = no_valid_catch
  end.

(** A DataFrame with the label [catch_kg] on two columns. *)
Definition repeated_catch_frame : DataFrame float :=
  mkDataFrame ["species_name"; "catch_kg"; "catch_kg"]
              [mkRow "Atlantic cod" (Num 0%float)].

(** A DataFrame with the label [species_name] on two columns. *)
Definition repeated_species_frame : DataFrame float :=
  mkDataFrame ["species_name"; "species_name"; "catch_kg"]
              [mkRow "Atlantic cod" (Num 100%float)].

(** C6, as stated, fails: on a DataFrame that has both required
    labels, one of them twice, the call raises a TypeError from inside
    the computation, which is none of the specified errors. *)
Lemma repeated_label_raises_unspecified_error :
  (calculate_mtl (VRef 0) (state_with TROPHIC_LEVELS repeated_catch_frame)).1
  = Raise (TypeError [FStr "arg must be a list, tuple, 1-d array, or Series"]) /\
  (calculate_mtl (VRef 0) (state_with TROPHIC_LEVELS repeated_species_frame)).1
  = Raise (TypeError [FStr "'Series' objects are mutable, thus they cannot be hashed"]) /\
  ~ specified_outcome
      (calculate_mtl (VRef 0) (state_with TROPHIC_LEVELS repeated_catch_frame)).1 /\
  ~ specified_outcome
      (calculate_mtl (VRef 0) (state_with TROPHIC_LEVELS repeated_species_frame)).1.
Proof.
  split; [vm_compute; reflexivity |]. split; [vm_compute; reflexivity |].
  split; vm_compute; intros [H | [H | H]]; discriminate H.
Qed.

(** The argument is no DataFrame, or a DataFrame in which neither of
    the two labels occurs twice. *)
Definition labels_not_repeated (σ : State float) (v : value) : Prop :=
  forall l df, v = VRef l -> heap σ !! l = Some df ->
               label_count "species_name" (columns df) <= 1 /\
               label_count "catch_kg" (columns df) <= 1.

(** C6, amended: when the argument is no DataFrame, or a DataFrame in
    which neither required label is repeated, whose [species_name]
    entries are strings and whose [catch_kg] entries are floats or
    strings, the call returns a float or raises one of the three
    errors of the specification; the KeyError, AttributeError,
    ZeroDivisionError and operand TypeError that the operations inside
    could raise never escape. *)
Theorem only_specified_errors (σ : State float) (v : value) :
  labels_not_repeated σ v ->
  specified_outcome (calculate_mtl v σ).1.
Proof.
  intros Hlabels.
  destruct (call_cases σ v) as [H | (l & df & -> & Hl & H)]; rewrite H; cbn [fst].
  - left. reflexivity.
  - destruct (Hlabels l df eq_refl Hl) as [Hs Hc].
    destruct (shape_repeated (columns df)) as [Hrc Hrs].
    unfold outcome_of. destruct (shape_of (columns df)).
    + right. left. reflexivity.
    + specialize (Hrc eq_refl). lia.
    + specialize (Hrs eq_refl). lia.
    + unfold finish. destruct (feqb _ fzero); cbn; auto.
Qed.

Lemma only_specified_errors_witness :
  specified_outcome
    (calculate_mtl (VRef 0)
       (state_with TROPHIC_LEVELS
          (frame [("Unknown fish", 50%float); ("Atlantic cod", 0%float)]))).1.
Proof.
  apply (only_specified_errors
           (state_with TROPHIC_LEVELS
              (frame [("Unknown fish", 50%float); ("Atlantic cod", 0%float)]))
           (VRef 0)).
  intros l df [= <-] Hdf. vm_compute in Hdf. injection Hdf as <-.
  split; vm_compute; lia.
Defined.

(** C7: on scenario A, with the table of the module, the call returns
    the float [3.2]. *)
Theorem scenario_A_result (σ : State float) (l : loc) :
  heap σ !! l = Some scenario_A ->
  trophic_levels σ = TROPHIC_LEVELS ->
  (calculate_mtl (VRef l) σ).1 = Return 3.2%float.
Proof.
  intros Hl Htable.
  rewrite (call_outcome σ l scenario_A Hl), Htable. vm_compute. reflexivity.
Qed.

Lemma scenario_A_result_witness :
  (calculate_mtl (VRef 0) (state_with TROPHIC_LEVELS scenario_A)).1 = Return 3.2%float.
Proof.
  apply (scenario_A_result (state_with TROPHIC_LEVELS scenario_A) 0%nat);
    reflexivity.
Defined.

(** C8: a call changes no DataFrame the caller can reach and leaves the
    table as it was; the only effect on what the caller can observe is
    at most one warning, and that warning is the missing-species one.
    (The coerced copy the function works on is a new object, which no
    reference of the caller points to.) *)
Theorem no_mutation (σ : State float) (v : value) :
  let σ' := (calculate_mtl v σ).2 in
  (forall l df, heap σ !! l = Some df -> heap σ' !! l = Some df) /\
  trophic_levels σ' = trophic_levels σ /\
  (warnings σ' = warnings σ \/
   exists names, names <> [] /\
                 warnings σ' = (warnings σ ++ [missing_warning names])%list).
Proof.
  destruct (call_cases σ v) as [H | (l0 & df0 & _ & _ & H)]; rewrite H; cbn [snd].
  - auto.
  - cbn [heap trophic_levels warnings].
    split; [| split; [reflexivity |]].
    + intros l df Hl. apply heap_after_keeps, Hl.
    + destruct (logged_cases (trophic_levels σ) df0) as [-> | (names & Hne & ->)].
      * left. apply app_nil_r.
      * right. exists names. auto.
Qed.

(** ** The sums over contributing rows *)

Section Sums.
Context {F : Type} {arith : PyFloat F}.

(** The catch of a row as a number, and the table's level for its
    species. *)
Definition catch_of (r : Row F) : F := coerced (catch_kg r).

Definition level_of (table : gmap string F) (r : Row F) : F :=
  default fnan (table !! species_name r).

(** A sum as the loop computes it: from [0.0], in row order. *)
Definition fsum (xs : list F) : F := foldl fadd fzero xs.

(** The catch-weighted mean as the specification writes it:
    [Σ(tl_i · catch_i) / Σ(catch_i)] over all rows. *)
Definition weighted_mean (table : gmap string F) (rws : list (Row F)) : F :=
  fdiv (fsum ((fun r => fmul (level_of table r) (catch_of r)) <$> rws))
       (fsum (catch_of <$> rws)).

Lemma step_contributes (table : gmap string F) (vars : Locals F) (r : Row F) :
  contributes table r = true ->
  step table vars r
  = mkLocals (fadd (total_catch vars) (catch_of r))
             (fadd (weighted_sum vars) (fmul (level_of table r) (catch_of r)))
             (missing_species vars).
Proof.
  unfold contributes, step, level_of, catch_of. intros Hc.
  apply andb_prop in Hc as [Hs Hk].
  apply negb_true_iff in Hs. apply bool_decide_eq_true in Hk as [tl Hk].
  rewrite Hs, Hk. reflexivity.
Qed.

Lemma scan_all_contribute (table : gmap string F) (rws : list (Row F)) :
  (forall r, r ∈ rws -> contributes table r = true) ->
  forall vars : Locals F,
    scan table rws vars
    = mkLocals
        (foldl fadd (total_catch vars) (catch_of <$> rws))
        (foldl fadd (weighted_sum vars)
               ((fun r => fmul (level_of table r) (catch_of r)) <$> rws))
        (missing_species vars).
Proof.
  induction rws as [| r rws IH]; intros Hall vars; [destruct vars; reflexivity |].
  change (scan table (r :: rws) vars) with (scan table rws (step table vars r)).
  rewrite IH by (intros r' Hr'; apply Hall; right; exact Hr').
  rewrite step_contributes by (apply Hall; left; reflexivity).
  reflexivity.
Qed.
End Sums.

(** On floats: once the accumulated catch is positive it stays
    positive, and a contributing row makes it positive. *)
Lemma contributes_positive (table : gmap string float) (r : Row float) :
  contributes table r = true -> (0 <? catch_of r)%float = true.
Proof.
  unfold contributes, catch_of, skipped. cbn [fisnan fleb fzero binary64].
  rewrite Binary64.skip_test, negb_involutive.
  intros H. apply andb_prop in H as [H _]. exact H.
Qed.

Lemma total_catch_stays_positive (table : gmap string float) (rws : list (Row float)) :
  forall vars : Locals float,
    (0 <? total_catch vars)%float = true ->
    (0 <? total_catch (scan table rws vars))%float = true.
Proof.
  induction rws as [| r rws IH]; intros vars Hpos; [exact Hpos |].
  change (scan table (r :: rws) vars) with (scan table rws (step table vars r)).
  apply IH.
  destruct (contributes table r) eqn:Hc.
  - rewrite step_contributes by exact Hc. cbn [total_catch].
    apply Binary64.add_pos; [exact Hpos | eapply contributes_positive; exact Hc].
  - destruct (sums_step_idle table vars r Hc) as [-> _]. exact Hpos.
Qed.

Lemma total_catch_zero_or_positive (table : gmap string float) (rws : list (Row float)) :
  forall vars : Locals float,
    total_catch vars = 0%float ->
    (total_catch (scan table rws vars) = 0%float /\
     forall r, r ∈ rws -> contributes table r = false)
    \/ (0 <? total_catch (scan table rws vars))%float = true.
Proof.
  induction rws as [| r rws IH]; intros vars Hz.
  - left. split; [exact Hz |]. intros r Hr. inversion Hr.
  - change (scan table (r :: rws) vars) with (scan table rws (step table vars r)).
    destruct (contributes table r) eqn:Hc.
    + right. apply total_catch_stays_positive.
      rewrite step_contributes by exact Hc. cbn [total_catch]. rewrite Hz.
      apply Binary64.add_zero_pos. eapply contributes_positive; exact Hc.
    + destruct (sums_step_idle table vars r Hc) as [Ht _].
      destruct (IH (step table vars r)) as [[Hz' Hall] | Hpos].
      * rewrite Ht. exact Hz.
      * left. split; [exact Hz' |].
        intros r' Hr'. apply elem_of_cons in Hr' as [-> | Hr']; auto.
      * right. exact Hpos.
Qed.

Lemma contributes_spec (table : gmap string float) (r : Row float) :
  contributes table r = true <->
  positive_catch (catch_kg r) /\ is_Some (table !! species_name r).
Proof.
  unfold contributes. rewrite andb_true_iff, negb_true_iff, bool_decide_eq_true.
  split; intros [H1 H2]; (split; [| exact H2]).
  - apply skipped_not_positive, H1.
  - apply positive_catch_skipped, H1.
Qed.

Lemma total_catch_init : total_catch (F := float) init = 0%float.
Proof. reflexivity. Qed.

(** C1, as stated, fails on a DataFrame that carries the label
    [species_name] on two columns: its one row has a species of the
    table and a positive catch, and the call raises a TypeError at the
    membership test of line 73. *)
Lemma repeated_species_label_raises :
  rows repeated_species_frame <> [] /\
  (forall r, r ∈ rows repeated_species_frame ->
             is_Some (TROPHIC_LEVELS !! species_name r) /\
             positive_catch (catch_kg r)) /\
  (calculate_mtl (VRef 0) (state_with TROPHIC_LEVELS repeated_species_frame)).1
  = Raise (TypeError [FStr "'Series' objects are mutable, thus they cannot be hashed"]).
Proof.
  split; [discriminate |]. split; [| vm_compute; reflexivity].
  intros r Hr. apply list_elem_of_In in Hr. cbn in Hr.
  destruct Hr as [<- | []]. split; [vm_compute; eauto | reflexivity].
Qed.

(** C1, amended: for a DataFrame in which each of the two labels
    occurs once, with at least one row, in which every species is a
    key of the table and every catch is a positive number, the call
    returns [Σ(tl_i · catch_i) / Σ(catch_i)] over all rows, the sums
    and the quotient being those of binary64 arithmetic. *)
Theorem weighted_mean_of_valid_rows
    (σ : State float) (l : loc) (df : DataFrame float) :
  heap σ !! l = Some df ->
  unique_labels df ->
  rows df <> [] ->
  (forall r, r ∈ rows df ->
             is_Some (trophic_levels σ !! species_name r) /\
             positive_catch (catch_kg r)) ->
  (calculate_mtl (VRef l) σ).1
  = Return (weighted_mean (trophic_levels σ) (rows df)).
Proof.
  intros Hl Huniq Hne Hall.
  assert (Hc : forall r, r ∈ rows df -> contributes (trophic_levels σ) r = true).
  { intros r Hr. apply contributes_spec. destruct (Hall r Hr); auto. }
  rewrite (call_outcome σ l df Hl).
  destruct (outcome_unique (trophic_levels σ) df Huniq) as [-> _].
  unfold finish.
  destruct (total_catch_zero_or_positive (trophic_levels σ) (rows df) init total_catch_init)
    as [[_ Hnone] | Hpos].
  - destruct (rows df) as [| r rest]; [contradiction |].
    pose proof (Hnone r (list_elem_of_here r rest)) as Hr.
    rewrite Hc in Hr by apply list_elem_of_here. discriminate Hr.
  - change (feqb ?x fzero) with (x =? 0)%float.
    rewrite (Binary64.pos_not_zero _ Hpos).
    rewrite (scan_all_contribute _ _ Hc). reflexivity.
Qed.

Lemma weighted_mean_of_valid_rows_witness :
  (calculate_mtl (VRef 0) (state_with TROPHIC_LEVELS scenario_A)).1
  = Return (weighted_mean TROPHIC_LEVELS (rows scenario_A)).
Proof.
  apply (weighted_mean_of_valid_rows
           (state_with TROPHIC_LEVELS scenario_A) 0%nat scenario_A).
  - reflexivity.
  - split; reflexivity.
  - discriminate.
  - intros r Hr. apply list_elem_of_In in Hr. cbn in Hr.
    destruct Hr as [<- | [<- | [<- | []]]];
      (split; [vm_compute; eauto | reflexivity]).
Defined.

(** C2, as stated, fails on a DataFrame that has both required
    columns and carries the label [catch_kg] twice: no row has a
    positive catch, yet the call raises the TypeError of
    [pd.to_numeric] at line 61, not the "No valid catch data"
    ValueError. *)
Lemma repeated_catch_label_raises :
  issubset required_cols (columns repeated_catch_frame) = true /\
  (forall r, r ∈ rows repeated_catch_frame ->
             ~ (positive_catch (catch_kg r) /\
                is_Some (TROPHIC_LEVELS !! species_name r))) /\
  (calculate_mtl (VRef 0) (state_with TROPHIC_LEVELS repeated_catch_frame)).1
  = Raise (TypeError [FStr "arg must be a list, tuple, 1-d array, or Series"]).
Proof.
  split; [vm_compute; reflexivity |]. split; [| vm_compute; reflexivity].
  intros r Hr. apply list_elem_of_In in Hr. cbn in Hr.
  destruct Hr as [<- | []]. intros [Hpos _]. cbn in Hpos. discriminate Hpos.
Qed.

(** C2, amended: for a DataFrame in which each of the two required
    labels occurs once, the call raises the "No valid catch data"
    ValueError exactly when no row has both a positive numeric catch
    and a species found in the table. *)
Theorem no_valid_catch_iff
    (σ : State float) (l : loc) (df : DataFrame float) :
  heap σ !! l = Some df ->
  unique_labels df ->
  (calculate_mtl (VRef l) σ).1
  = Raise (ValueError [FStr "No valid catch data with known trophic levels. ";
                       FStr "Cannot compute MTL."])
  <->
  (forall r, r ∈ rows df ->
             ~ (positive_catch (catch_kg r) /\
                is_Some (trophic_levels σ !! species_name r))).
Proof.
  intros Hl Huniq.
  rewrite (call_outcome σ l df Hl).
  destruct (outcome_unique (trophic_levels σ) df Huniq) as [-> _]. unfold finish.
  destruct (total_catch_zero_or_positive (trophic_levels σ) (rows df) init total_catch_init)
    as [[Hz Hnone] | Hpos].
  - rewrite Hz. change (feqb 0%float fzero) with true. cbn.
    split; [| reflexivity].
    intros _ r Hr Hboth. apply contributes_spec in Hboth.
    rewrite (Hnone r Hr) in Hboth. discriminate.
  - change (feqb ?x fzero) with (x =? 0)%float.
    rewrite (Binary64.pos_not_zero _ Hpos).
    split; [discriminate |].
    intros Hall. exfalso.
    assert (Hidle : forall r, r ∈ rows df -> contributes (trophic_levels σ) r = false).
    { intros r Hr. apply not_true_is_false. intros Hc.
      apply (Hall r Hr). apply contributes_spec, Hc. }
    rewrite (total_catch_idle _ _ Hidle init) in Hpos. discriminate Hpos.
Qed.

Lemma no_valid_catch_iff_witness :
  (calculate_mtl (VRef 0)
     (state_with TROPHIC_LEVELS
        (frame [("Atlantic cod", 0%float); ("Pacific sardine", (-10)%float)]))).1
  = Raise (ValueError [FStr "No valid catch data with known trophic levels. ";
                       FStr "Cannot compute MTL."])
  <->
  (forall r,
      r ∈ rows (frame [("Atlantic cod", 0%float); ("Pacific sardine", (-10)%float)]) ->
      ~ (positive_catch (catch_kg r) /\
         is_Some (TROPHIC_LEVELS !! species_name r))).
Proof.
  apply (no_valid_catch_iff
           (state_with TROPHIC_LEVELS
              (frame [("Atlantic cod", 0%float); ("Pacific sardine", (-10)%float)]))
           0%nat
           (frame [("Atlantic cod", 0%float); ("Pacific sardine", (-10)%float)])).
  - reflexivity.
  - split; reflexivity.
Defined.

(** ** The range of the result *)

(** C9, as stated, fails on floats.  Every level of the table is at
    most [4.4], yet two Swordfish rows of 1 kg and 14 kg give a mean
    above [4.4]: the products and the sums are rounded.  (A catch of
    [1e308] makes the weighted sum overflow, and the call returns
    [infinity].) *)
Lemma rounded_mean_exceeds_largest_level :
  map_Forall (fun _ tl => (2.5 <=? tl)%float = true /\ (tl <=? 4.4)%float = true)
             TROPHIC_LEVELS /\
  (calculate_mtl (VRef 0)
     (state_with TROPHIC_LEVELS
        (frame [("Swordfish", 1%float); ("Swordfish", 14%float)]))).1
  = Return 4.4000000000000012%float /\
  (4.4000000000000012 <=? 4.4)%float = false /\
  (calculate_mtl (VRef 0)
     (state_with TROPHIC_LEVELS (frame [("Swordfish", 1e308%float)]))).1
  = Return infinity.
Proof.
  split; [| split; [| split]]; try (vm_compute; reflexivity).
  apply map_Forall_to_list. vm_compute.
  repeat (constructor; [split; reflexivity |]). constructor.
Qed.

(** What does hold of the returned float is a matter of rounding
    errors; it is established at the end of the file, after the error
    analysis of the float operations. *)

(** ** Further properties of [calculate_mtl] *)

(** The rows that add to the sums, in row order. *)
Definition contributing {F} `{PyFloat F} (table : gmap string F)
    (rws : list (Row F)) : list (Row F) :=
  filter (fun r => contributes table r = true) rws.

(** The rows whose catch passes the test of line 70. *)
Definition with_valid_catch {F} `{PyFloat F} (rws : list (Row F)) : list (Row F) :=
  filter (fun r => skipped (coerced (catch_kg r)) = false) rws.

Section Filtering.
Context {F : Type} {arith : PyFloat F}.

Lemma scan_sums_only (table : gmap string F) (rws : list (Row F)) :
  forall vars vars' : Locals F,
    total_catch vars = total_catch vars' ->
    weighted_sum vars = weighted_sum vars' ->
    total_catch (scan table rws vars) = total_catch (scan table rws vars') /\
    weighted_sum (scan table rws vars) = weighted_sum (scan table rws vars').
Proof.
  induction rws as [| r rws IH]; intros vars vars' Ht Hw; [split; assumption |].
  change (scan table (r :: rws) ?v) with (scan table rws (step table v r)).
  apply IH; unfold step;
    destruct (skipped (coerced (catch_kg r))); try assumption;
    destruct (table !! species_name r); cbn; congruence.
Qed.

Lemma sums_scan_contributing (table : gmap string F) (rws : list (Row F)) :
  forall vars : Locals F,
    total_catch (scan table rws vars)
    = total_catch (scan table (contributing table rws) vars) /\
    weighted_sum (scan table rws vars)
    = weighted_sum (scan table (contributing table rws) vars).
Proof.
  unfold contributing.
  induction rws as [| r rws IH]; intros vars; [split; reflexivity |].
  change (scan table (r :: rws) vars) with (scan table rws (step table vars r)).
  rewrite filter_cons. destruct (decide (contributes table r = true)) as [Hc | Hc].
  - change (scan table (r :: ?l) vars) with (scan table l (step table vars r)).
    apply IH.
  - apply not_true_is_false in Hc.
    destruct (IH (step table vars r)) as [Ht Hw]. rewrite Ht, Hw.
    destruct (sums_step_idle table vars r Hc) as [Ht' Hw'].
    apply scan_sums_only; assumption.
Qed.
End Filtering.

Lemma contributing_all {F} `{PyFloat F} (table : gmap string F) (rws : list (Row F)) :
  forall r, r ∈ contributing table rws -> contributes table r = true.
Proof. intros r Hr. apply list_elem_of_filter in Hr as [Hc _]. exact Hc. Qed.

(** X1: what the call computes on a DataFrame in which each of the
    two labels occurs once.  When no row has a positive catch and a
    known species it raises the "No valid catch data" error; otherwise
    it returns the weighted mean of the rows that do, in row order,
    the other rows having no part in the value. *)
Theorem outcome_over_contributing_rows
    (σ : State float) (l : loc) (df : DataFrame float) :
  heap σ !! l = Some df ->
  unique_labels df ->
  (calculate_mtl (VRef l) σ).1
  = match contributing (trophic_levels σ) (rows df) with
    | [] => Raise no_valid_catch
    | r :: rest => Return (weighted_mean (trophic_levels σ) (r :: rest))
    end.
Proof.
  intros Hl Huniq.
  rewrite (call_outcome σ l df Hl).
  destruct (outcome_unique (trophic_levels σ) df Huniq) as [-> _]. unfold finish.
  destruct (sums_scan_contributing (trophic_levels σ) (rows df) init) as [-> ->].
  pose proof (contributing_all (trophic_levels σ) (rows df)) as Hall.
  destruct (contributing (trophic_levels σ) (rows df)) as [| r rest] eqn:E.
  - reflexivity.
  - destruct (total_catch_zero_or_positive (trophic_levels σ) (r :: rest) init
                total_catch_init) as [[_ Hnone] | Hpos].
    + pose proof (Hnone r (list_elem_of_here r rest)) as Hr.
      rewrite Hall in Hr by apply list_elem_of_here. discriminate Hr.
    + change (feqb ?x fzero) with (x =? 0)%float.
      rewrite (Binary64.pos_not_zero _ Hpos).
      rewrite (scan_all_contribute _ _ Hall). reflexivity.
Qed.

Lemma outcome_over_contributing_rows_witness :
  (calculate_mtl (VRef 0)
     (state_with TROPHIC_LEVELS
        (frame [("Atlantic cod", 100%float); ("Unknown fish", 50%float);
                ("Shrimp", 30%float); ("Squid", (-4)%float)]))).1
  = Return (weighted_mean TROPHIC_LEVELS
              (rows (frame [("Atlantic cod", 100%float); ("Shrimp", 30%float)]))).
Proof.
  apply (outcome_over_contributing_rows
           (state_with TROPHIC_LEVELS
              (frame [("Atlantic cod", 100%float); ("Unknown fish", 50%float);
                      ("Shrimp", 30%float); ("Squid", (-4)%float)]))
           0%nat
           (frame [("Atlantic cod", 100%float); ("Unknown fish", 50%float);
                   ("Shrimp", 30%float); ("Squid", (-4)%float)])).
  - reflexivity.
  - split; reflexivity.
Defined.

(** The warning's text for a set of names. *)
Definition warning_for (names : gset string) : message :=
  [FStr "Species not found in trophic level dictionary: ";
   FSet names;
   FStr ". ";
   FStr "These species are excluded from MTL calculation."].

(** The set the warning prints: [set(missing_species)] after the
    loop. *)
Definition unmatched_set {F} `{PyFloat F} (table : gmap string F)
    (rws : list (Row F)) : gset string :=
  list_to_set (unmatched_names table rws).

Lemma elem_of_unmatched_names {F} `{PyFloat F} (table : gmap string F)
    (rws : list (Row F)) (s : string) :
  s ∈ unmatched_names table rws <->
  exists r, r ∈ rws /\ species_name r = s /\ unmatched table r = true.
Proof.
  induction rws as [| r rws IH]; cbn.
  - split; [intros Hs; inversion Hs | intros (r & Hr & _); inversion Hr].
  - destruct (unmatched table r) eqn:Hu.
    + rewrite elem_of_cons, IH. split.
      * intros [-> | (r' & Hr' & Hs & Hu')].
        -- exists r. split; [left | auto].
        -- exists r'. split; [right; exact Hr' | auto].
      * intros (r' & Hr' & Hs & Hu').
        apply elem_of_cons in Hr' as [-> | Hr']; [left; auto | right; eauto].
    + rewrite IH. split.
      * intros (r' & Hr' & Hs & Hu'). exists r'. split; [right; exact Hr' | auto].
      * intros (r' & Hr' & Hs & Hu').
        apply elem_of_cons in Hr' as [-> | Hr']; [congruence | eauto].
Qed.

Lemma unmatched_spec (table : gmap string float) (r : Row float) :
  unmatched table r = true <->
  positive_catch (catch_kg r) /\ table !! species_name r = None.
Proof.
  unfold unmatched. rewrite andb_true_iff, negb_true_iff, bool_decide_eq_true.
  split; intros [H1 H2]; (split; [| exact H2]).
  - apply skipped_not_positive, H1.
  - apply positive_catch_skipped, H1.
Qed.

Lemma emitted_scan {F} `{PyFloat F} (table : gmap string F) (rws : list (Row F)) :
  emitted (scan table rws init)
  = if decide (unmatched_set table rws = ∅) then []
    else [warning_for (unmatched_set table rws)].
Proof.
  rewrite emitted_names. unfold unmatched_set.
  destruct (unmatched_names table rws) as [| s rest]; cbn [list_to_set].
  - rewrite decide_True by reflexivity. reflexivity.
  - rewrite decide_False; [reflexivity |].
    intros Hempty. apply (not_elem_of_empty (C := gset string) s).
    rewrite <- Hempty. apply elem_of_union_l, elem_of_singleton. reflexivity.
Qed.

Lemma elem_of_unmatched_set (table : gmap string float) (rws : list (Row float))
    (s : string) :
  s ∈ unmatched_set table rws <->
  exists r, r ∈ rws /\ species_name r = s /\
            positive_catch (catch_kg r) /\ table !! s = None.
Proof.
  unfold unmatched_set.
  rewrite elem_of_list_to_set, elem_of_unmatched_names.
  split; intros (r & Hr & Hs & Hu); exists r; (split; [exact Hr |]);
    (split; [exact Hs |]).
  - apply unmatched_spec in Hu. rewrite <- Hs. exact Hu.
  - apply unmatched_spec. rewrite Hs. exact Hu.
Qed.

(** X2: what is logged.  For a DataFrame in which each of the two
    labels occurs once, the call adds a warning exactly when some row
    has a positive catch and a species that is not a key of the table;
    the warning then prints the set of the species of those rows, and
    nothing else is logged. *)
Theorem warning_lists_unknown_species
    (σ : State float) (l : loc) (df : DataFrame float) :
  heap σ !! l = Some df ->
  unique_labels df ->
  let names := unmatched_set (trophic_levels σ) (rows df) in
  (forall s, s ∈ names <->
             exists r, r ∈ rows df /\ species_name r = s /\
                       positive_catch (catch_kg r) /\
                       trophic_levels σ !! s = None) /\
  warnings (calculate_mtl (VRef l) σ).2
  = (warnings σ ++ if decide (names = ∅) then [] else [warning_for names])%list.
Proof.
  intros Hl Huniq names. split.
  - intros s. apply elem_of_unmatched_set.
  - rewrite (call_warnings σ l df Hl).
    destruct (outcome_unique (trophic_levels σ) df Huniq) as [_ ->].
    rewrite emitted_scan. reflexivity.
Qed.

Lemma warning_lists_unknown_species_witness :
  let df := frame [("Atlantic cod", 100%float); ("Unknown fish", 50%float);
                   ("Shrimp", 30%float)] in
  let names := unmatched_set TROPHIC_LEVELS (rows df) in
  (forall s, s ∈ names <->
             exists r, r ∈ rows df /\ species_name r = s /\
                       positive_catch (catch_kg r) /\
                       TROPHIC_LEVELS !! s = None) /\
  warnings (calculate_mtl (VRef 0) (state_with TROPHIC_LEVELS df)).2
  = if decide (names = ∅) then [] else [warning_for names].
Proof.
  apply (warning_lists_unknown_species
           (state_with TROPHIC_LEVELS
              (frame [("Atlantic cod", 100%float); ("Unknown fish", 50%float);
                      ("Shrimp", 30%float)]))
           0%nat
           (frame [("Atlantic cod", 100%float); ("Unknown fish", 50%float);
                   ("Shrimp", 30%float)])).
  - reflexivity.
  - split; reflexivity.
Defined.

(** X3: the warning is logged before the total is checked.  For a
    DataFrame in which each of the two labels occurs once: when no row
    has a positive catch and a known species, but some row has a
    positive catch and an unknown species, the call logs the warning
    and then raises the "No valid catch data" error. *)
Theorem warning_logged_before_failure
    (σ : State float) (l : loc) (df : DataFrame float) :
  heap σ !! l = Some df ->
  unique_labels df ->
  (forall r, r ∈ rows df -> positive_catch (catch_kg r) ->
             trophic_levels σ !! species_name r = None) ->
  (exists r, r ∈ rows df /\ positive_catch (catch_kg r)) ->
  (calculate_mtl (VRef l) σ).1 = Raise no_valid_catch /\
  warnings (calculate_mtl (VRef l) σ).2
  = (warnings σ ++ [warning_for (unmatched_set (trophic_levels σ) (rows df))])%list.
Proof.
  intros Hl Huniq Hall (r0 & Hr0 & Hpos0).
  rewrite (call_outcome σ l df Hl), (call_warnings σ l df Hl).
  destruct (outcome_unique (trophic_levels σ) df Huniq) as [-> ->]. split.
  - unfold finish. rewrite total_catch_idle; [reflexivity |].
    intros r Hr. apply not_true_is_false. intros Hc.
    apply contributes_spec in Hc as [Hpos [tl Hk]].
    rewrite (Hall r Hr Hpos) in Hk. discriminate.
  - rewrite emitted_scan. rewrite decide_False; [reflexivity |].
    intros Hempty. apply (not_elem_of_empty (C := gset string) (species_name r0)).
    rewrite <- Hempty. apply elem_of_unmatched_set. exists r0. auto.
Qed.

Lemma warning_logged_before_failure_witness :
  let df := frame [("Unknown fish", 50%float); ("Atlantic cod", 0%float)] in
  (calculate_mtl (VRef 0) (state_with TROPHIC_LEVELS df)).1 = Raise no_valid_catch /\
  warnings (calculate_mtl (VRef 0) (state_with TROPHIC_LEVELS df)).2
  = [warning_for (unmatched_set TROPHIC_LEVELS (rows df))].
Proof.
  apply (warning_logged_before_failure
           (state_with TROPHIC_LEVELS
              (frame [("Unknown fish", 50%float); ("Atlantic cod", 0%float)]))
           0%nat
           (frame [("Unknown fish", 50%float); ("Atlantic cod", 0%float)])).
  - reflexivity.
  - split; reflexivity.
  - intros r Hr Hpos. apply list_elem_of_In in Hr. cbn in Hr.
    destruct Hr as [<- | [<- | []]].
    + vm_compute. reflexivity.
    + cbn in Hpos. discriminate Hpos.
  - exists (mkRow "Unknown fish" (Num 50%float)).
    split; [left | reflexivity].
Defined.

Section Rearranging.
Context {F : Type} {arith : PyFloat F}.

Lemma unmatched_names_Permutation (table : gmap string F) (a b : list (Row F)) :
  a ≡ₚ b -> unmatched_names table a ≡ₚ unmatched_names table b.
Proof.
  induction 1 as [| r a b _ IH | r r' a | a b c _ IH1 _ IH2]; cbn.
  - reflexivity.
  - destruct (unmatched table r); [constructor |]; exact IH.
  - destruct (unmatched table r), (unmatched table r'); try reflexivity.
    apply perm_swap.
  - etransitivity; eassumption.
Qed.

Lemma unmatched_set_Permutation (table : gmap string F) (a b : list (Row F)) :
  a ≡ₚ b -> unmatched_set table a = unmatched_set table b.
Proof.
  intros Hp. unfold unmatched_set.
  apply list_to_set_perm_L, unmatched_names_Permutation, Hp.
Qed.

Lemma scan_with_valid_catch (table : gmap string F) (rws : list (Row F)) :
  forall vars : Locals F,
    scan table (with_valid_catch rws) vars = scan table rws vars.
Proof.
  unfold with_valid_catch.
  induction rws as [| r rws IH]; intros vars; [reflexivity |].
  rewrite filter_cons.
  change (scan table (r :: rws) vars) with (scan table rws (step table vars r)).
  destruct (decide (skipped (coerced (catch_kg r)) = false)) as [Hs | Hs].
  - change (scan table (r :: ?l) vars) with (scan table l (step table vars r)).
    apply IH.
  - apply not_false_is_true in Hs. rewrite (step_skipped table vars r Hs). apply IH.
Qed.

Lemma call_again (σ : State F) (v : value) :
  (calculate_mtl v (calculate_mtl v σ).2).1 = (calculate_mtl v σ).1 /\
  exists w : list message,
    warnings (calculate_mtl v σ).2 = (warnings σ ++ w)%list /\
    warnings (calculate_mtl v (calculate_mtl v σ).2).2
    = (warnings (calculate_mtl v σ).2 ++ w)%list.
Proof.
  destruct (call_cases σ v) as [H | (l & df & -> & Hl & H)];
    rewrite H; cbn [fst snd].
  - rewrite H. split; [reflexivity |]. exists []. rewrite !app_nil_r. auto.
  - match goal with |- context [calculate_mtl _ ?s] => set (σ1 := s) end.
    assert (Hl' : heap σ1 !! l = Some df) by (apply heap_after_keeps, Hl).
    rewrite (calculate_mtl_frame σ1 l df Hl').
    cbn [fst snd σ1 trophic_levels warnings].
    split; [reflexivity |]. exists (logged (trophic_levels σ) df). auto.
Qed.

Lemma any_valid_catch_Permutation (a b : list (Row F)) :
  a ≡ₚ b -> any_valid_catch a = any_valid_catch b.
Proof.
  unfold any_valid_catch.
  induction 1 as [| r a b _ IH | r r' a | a b c _ IH1 _ IH2]; cbn.
  - reflexivity.
  - rewrite IH. reflexivity.
  - destruct (negb (skipped (coerced (catch_kg r)))),
             (negb (skipped (coerced (catch_kg r')))); reflexivity.
  - congruence.
Qed.

Lemma any_valid_catch_kept (rws : list (Row F)) :
  any_valid_catch (with_valid_catch rws) = any_valid_catch rws.
Proof.
  unfold any_valid_catch, with_valid_catch.
  induction rws as [| r rws IH]; [reflexivity |].
  rewrite filter_cons.
  destruct (decide (skipped (coerced (catch_kg r)) = false)) as [Hs | Hs]; cbn.
  - rewrite IH. reflexivity.
  - apply not_false_is_true in Hs. rewrite Hs, IH. reflexivity.
Qed.

Lemma outcome_kept (table : gmap string F) (df : DataFrame F) :
  outcome_of table (mkDataFrame (columns df) (with_valid_catch (rows df)))
  = outcome_of table df /\
  logged table (mkDataFrame (columns df) (with_valid_catch (rows df)))
  = logged table df.
Proof.
  unfold outcome_of, logged. cbn [columns rows].
  destruct (shape_of (columns df)); try (split; reflexivity).
  - rewrite any_valid_catch_kept. split; reflexivity.
  - rewrite scan_with_valid_catch. split; reflexivity.
Qed.
End Rearranging.

Lemma finish_raises (table : gmap string float) (rws : list (Row float)) (e : exn) :
  finish (scan table rws init) = Raise e <->
  e = no_valid_catch /\ forall r, r ∈ rws -> contributes table r = false.
Proof.
  unfold finish.
  destruct (total_catch_zero_or_positive table rws init total_catch_init)
    as [[Hz Hnone] | Hpos].
  - rewrite Hz. change (feqb 0%float fzero) with true. cbn.
    split; [intros [= <-]; auto | intros [-> _]; reflexivity].
  - change (feqb ?x fzero) with (x =? 0)%float.
    rewrite (Binary64.pos_not_zero _ Hpos).
    split; [discriminate |]. intros [_ Hall]. exfalso.
    rewrite (total_catch_idle _ _ Hall init) in Hpos. discriminate Hpos.
Qed.

(** X4: the order of the rows does not matter to the diagnostics.
    With the rows permuted, the call logs the same warnings and raises
    the same exception, if it raises one.  (A returned value can
    differ between the two orders.) *)
Theorem row_order_irrelevant_to_diagnostics
    (σ : State float) (l : loc) (df : DataFrame float) (rws : list (Row float)) :
  heap σ !! l = Some df ->
  rws ≡ₚ rows df ->
  let σ' := with_frame σ l (mkDataFrame (columns df) rws) in
  warnings (calculate_mtl (VRef l) σ').2 = warnings (calculate_mtl (VRef l) σ).2 /\
  forall e, (calculate_mtl (VRef l) σ').1 = Raise e <->
            (calculate_mtl (VRef l) σ).1 = Raise e.
Proof.
  intros Hl Hp σ'.
  assert (Hl' : heap σ' !! l = Some (mkDataFrame (columns df) rws))
    by apply lookup_insert_eq.
  rewrite (call_outcome σ' l _ Hl'), (call_outcome σ l _ Hl).
  rewrite (call_warnings σ' l _ Hl'), (call_warnings σ l _ Hl).
  cbn [σ' with_frame trophic_levels warnings].
  unfold outcome_of, logged. cbn [columns rows].
  destruct (shape_of (columns df)); try (split; reflexivity).
  - rewrite (any_valid_catch_Permutation _ _ Hp). split; reflexivity.
  - rewrite !emitted_scan, (unmatched_set_Permutation _ _ _ Hp).
    split; [reflexivity |].
    intros e. rewrite !finish_raises.
    split; intros [He Hall]; (split; [exact He |]); intros r Hr; apply Hall.
    + rewrite Hp. exact Hr.
    + rewrite <- Hp. exact Hr.
Qed.

Lemma row_order_irrelevant_to_diagnostics_witness :
  let df := frame [("Unknown fish", 50%float); ("Atlantic cod", 100%float);
                   ("Krill", 3%float)] in
  let σ := state_with TROPHIC_LEVELS df in
  let σ' := with_frame σ 0%nat (mkDataFrame (columns df) (reverse (rows df))) in
  warnings (calculate_mtl (VRef 0) σ').2 = warnings (calculate_mtl (VRef 0) σ).2 /\
  forall e, (calculate_mtl (VRef 0) σ').1 = Raise e <->
            (calculate_mtl (VRef 0) σ).1 = Raise e.
Proof.
  apply (row_order_irrelevant_to_diagnostics
           (state_with TROPHIC_LEVELS
              (frame [("Unknown fish", 50%float); ("Atlantic cod", 100%float);
                      ("Krill", 3%float)]))
           0%nat
           (frame [("Unknown fish", 50%float); ("Atlantic cod", 100%float);
                   ("Krill", 3%float)])).
  - reflexivity.
  - apply reverse_Permutation.
Defined.

(** X5: a call leaves nothing behind that a later call can see.  A
    second call with the same argument has the same outcome as the
    first and logs the same warnings once more. *)
Theorem repeated_call (σ : State float) (v : value) :
  (calculate_mtl v (calculate_mtl v σ).2).1 = (calculate_mtl v σ).1 /\
  exists w : list message,
    warnings (calculate_mtl v σ).2 = (warnings σ ++ w)%list /\
    warnings (calculate_mtl v (calculate_mtl v σ).2).2
    = (warnings (calculate_mtl v σ).2 ++ w)%list.
Proof. apply call_again. Qed.

(** X6: cleaning the data first changes nothing.  Dropping every row
    whose catch is not a positive number, wherever it stands, leaves
    the outcome of the call and what it logs unchanged. *)
Theorem invalid_catch_rows_can_be_dropped
    (σ : State float) (l : loc) (df : DataFrame float) :
  heap σ !! l = Some df ->
  let kept := with_valid_catch (rows df) in
  let σ' := with_frame σ l (mkDataFrame (columns df) kept) in
  (forall r, r ∈ kept <-> r ∈ rows df /\ positive_catch (catch_kg r)) /\
  (calculate_mtl (VRef l) σ').1 = (calculate_mtl (VRef l) σ).1 /\
  warnings (calculate_mtl (VRef l) σ').2 = warnings (calculate_mtl (VRef l) σ).2.
Proof.
  intros Hl kept σ'. split.
  - intros r. unfold kept, with_valid_catch. rewrite list_elem_of_filter.
    split; intros [H1 H2].
    + split; [exact H2 | apply skipped_not_positive, H1].
    + split; [apply positive_catch_skipped, H2 | exact H1].
  - assert (Hl' : heap σ' !! l = Some (mkDataFrame (columns df) kept))
      by apply lookup_insert_eq.
    rewrite (call_outcome σ' l _ Hl'), (call_outcome σ l _ Hl).
    rewrite (call_warnings σ' l _ Hl'), (call_warnings σ l _ Hl).
    cbn [σ' with_frame trophic_levels warnings]. unfold kept.
    destruct (outcome_kept (trophic_levels σ) df) as [-> ->].
    split; reflexivity.
Qed.

Lemma invalid_catch_rows_can_be_dropped_witness :
  let df := mkDataFrame ["species_name"; "catch_kg"]
              [mkRow "Squid" (Unparsable "n/a");
               mkRow "Atlantic cod" (Num 100%float);
               mkRow "Unknown fish" (Num (-1)%float);
               mkRow "Shrimp" (Num 30%float)] in
  let σ := state_with TROPHIC_LEVELS df in
  let kept := with_valid_catch (rows df) in
  let σ' := with_frame σ 0%nat (mkDataFrame (columns df) kept) in
  (forall r, r ∈ kept <-> r ∈ rows df /\ positive_catch (catch_kg r)) /\
  (calculate_mtl (VRef 0) σ').1 = (calculate_mtl (VRef 0) σ).1 /\
  warnings (calculate_mtl (VRef 0) σ').2 = warnings (calculate_mtl (VRef 0) σ).2.
Proof.
  apply (invalid_catch_rows_can_be_dropped
           (state_with TROPHIC_LEVELS
              (mkDataFrame ["species_name"; "catch_kg"]
                 [mkRow "Squid" (Unparsable "n/a");
                  mkRow "Atlantic cod" (Num 100%float);
                  mkRow "Unknown fish" (Num (-1)%float);
                  mkRow "Shrimp" (Num 30%float)]))
           0%nat).
  reflexivity.
Defined.

(** ** Infinite catches *)

Module Binary64Inf.
Local Open Scope Z_scope.

(** Zero, a positive finite number or plus infinity. *)
Definition SFnonneg (x : spec_float) : bool :=
  match x with
  | S754_zero false | S754_finite false _ _ | S754_infinity false => true
  | _ => false
  end.

Lemma positive_nonneg (x : spec_float) :
  Binary64.SFpositive x = true -> SFnonneg x = true.
Proof. destruct x as [[] | [] | | [] m e]; cbn; congruence. Qed.

Lemma shr_fexp_nonneg (m e : Z) (l : location) :
  0 <= m -> 0 <= shr_m (fst (shr_fexp prec emax m e l)).
Proof.
  intros Hm. unfold shr_fexp, shr.
  destruct (fexp prec emax (Zdigits2 m + e) - e) as [| n | n]; cbn [fst];
    rewrite ?Binary64.shr_record_of_loc_m; try exact Hm.
  rewrite Binary64.iter_pos_shr_m by (rewrite Binary64.shr_record_of_loc_m; exact Hm).
  rewrite Binary64.shr_record_of_loc_m.
  apply Z.div_pos; [exact Hm | apply Z.pow_pos_nonneg; lia].
Qed.

Lemma round_nearest_even_nonneg (m : Z) (l : location) :
  0 <= m -> 0 <= round_nearest_even m l.
Proof. intros H. destruct l as [| []]; simpl; try destruct (Z.even m); lia. Qed.

Lemma binary_round_aux_nonneg (m e : Z) (l : location) :
  0 <= m -> SFnonneg (binary_round_aux prec emax false m e l) = true.
Proof.
  intros Hm. unfold binary_round_aux.
  pose proof (shr_fexp_nonneg m e l Hm) as H1.
  destruct (shr_fexp prec emax m e l) as [mrs' e']. cbn [fst] in H1.
  pose proof (round_nearest_even_nonneg _ (loc_of_shr_record mrs') H1) as H2.
  pose proof (shr_fexp_nonneg _ e' loc_Exact H2) as H3.
  destruct (shr_fexp prec emax _ e' loc_Exact) as [mrs'' e'']. cbn [fst] in H3.
  destruct (shr_m mrs'') as [| q | q]; try lia; [reflexivity |].
  destruct (e'' <=? emax - prec); reflexivity.
Qed.

Lemma binary_round_nonneg (m : positive) (e : Z) :
  SFnonneg (binary_round prec emax false m e) = true.
Proof.
  unfold binary_round. destruct (shl_align m e _) as [mz ez].
  apply binary_round_aux_nonneg. lia.
Qed.

Lemma SF64add_nonneg (x y : spec_float) :
  SFnonneg x = true -> SFnonneg y = true -> SFnonneg (SF64add x y) = true.
Proof.
  intros Px Py.
  destruct x as [sx | sx | | sx mx ex]; try discriminate Px;
  destruct y as [sy | sy | | sy my ey]; try discriminate Py;
  destruct sx; try discriminate Px; destruct sy; try discriminate Py;
  try reflexivity.
  unfold SF64add, SFadd. cbn [cond_Zopp].
  rewrite <- Pos2Z.inj_add. cbn [binary_normalize].
  apply binary_round_nonneg.
Qed.

Lemma SF64add_inf_r (x : spec_float) :
  SFnonneg x = true -> SF64add x (S754_infinity false) = S754_infinity false.
Proof. destruct x as [[] | [] | | [] m e]; cbn; congruence. Qed.

Lemma SF64add_inf_l (y : spec_float) :
  SFnonneg y = true -> SF64add (S754_infinity false) y = S754_infinity false.
Proof. destruct y as [[] | [] | | [] m e]; cbn; congruence. Qed.

Lemma SF64mul_nonneg (x y : spec_float) :
  Binary64.SFpositive x = true -> Binary64.SFpositive y = true ->
  SFnonneg (SF64mul x y) = true.
Proof.
  intros Px Py.
  destruct x as [sx | sx | | sx mx ex]; try discriminate Px;
  destruct y as [sy | sy | | sy my ey]; try discriminate Py;
  destruct sx; try discriminate Px; destruct sy; try discriminate Py;
  try reflexivity.
  unfold SF64mul, SFmul. cbn [xorb].
  apply binary_round_aux_nonneg. lia.
Qed.

(** On primitive floats. *)
Definition nonneg (x : float) : Prop := SFnonneg (Prim2SF x) = true.

Lemma Prim2SF_infinity : Prim2SF infinity = S754_infinity false.
Proof. reflexivity. Qed.

Lemma is_infinity (x : float) :
  Prim2SF x = S754_infinity false -> x = infinity.
Proof. intros H. apply Prim2SF_inj. rewrite H. reflexivity. Qed.

Lemma finite_positive (x : float) :
  (0 <? x)%float = true -> (x <? infinity)%float = true ->
  exists m e, Prim2SF x = S754_finite false m e.
Proof.
  rewrite Binary64.ltb_zero_spec, FloatAxioms.ltb_spec, Prim2SF_infinity.
  destruct (Prim2SF x) as [[] | [] | | [] m e]; cbn; try discriminate; eauto.
Qed.

Lemma add_nonneg (x y : float) : nonneg x -> nonneg y -> nonneg (x + y)%float.
Proof. unfold nonneg. rewrite FloatAxioms.add_spec. apply SF64add_nonneg. Qed.

Lemma add_infinity_r (x : float) : nonneg x -> (x + infinity)%float = infinity.
Proof.
  intros Hx. apply is_infinity.
  rewrite FloatAxioms.add_spec, Prim2SF_infinity. apply SF64add_inf_r, Hx.
Qed.

Lemma add_infinity_l (y : float) : nonneg y -> (infinity + y)%float = infinity.
Proof.
  intros Hy. apply is_infinity.
  rewrite FloatAxioms.add_spec, Prim2SF_infinity. apply SF64add_inf_l, Hy.
Qed.

Lemma mul_nonneg (x y : float) :
  (0 <? x)%float = true -> (0 <? y)%float = true -> nonneg (x * y)%float.
Proof.
  intros Hx Hy. rewrite Binary64.ltb_zero_spec in Hx, Hy.
  unfold nonneg. rewrite FloatAxioms.mul_spec. apply SF64mul_nonneg; assumption.
Qed.

Lemma mul_infinity (x : float) :
  (0 <? x)%float = true -> (x <? infinity)%float = true ->
  (x * infinity)%float = infinity.
Proof.
  intros H0 Hf. destruct (finite_positive x H0 Hf) as (m & e & Hx).
  apply is_infinity. rewrite FloatAxioms.mul_spec, Hx, Prim2SF_infinity. reflexivity.
Qed.

Lemma positive_is_nonneg (x : float) : (0 <? x)%float = true -> nonneg x.
Proof.
  rewrite Binary64.ltb_zero_spec. apply positive_nonneg.
Qed.

End Binary64Inf.

(** A table all of whose levels are positive finite numbers, as those
    of [TROPHIC_LEVELS] are. *)
Definition levels_positive_finite (table : gmap string float) : Prop :=
  map_Forall (fun _ tl => (0 <? tl)%float = true /\ (tl <? infinity)%float = true)
             table.

Definition sums_nonneg (vars : Locals float) : Prop :=
  Binary64Inf.nonneg (total_catch vars) /\ Binary64Inf.nonneg (weighted_sum vars).

Definition sums_infinite (vars : Locals float) : Prop :=
  total_catch vars = infinity /\ weighted_sum vars = infinity.

Lemma contributes_level (table : gmap string float) (r : Row float) :
  levels_positive_finite table ->
  contributes table r = true ->
  (0 <? level_of table r)%float = true /\
  (level_of table r <? infinity)%float = true.
Proof.
  intros Htable Hc. apply contributes_spec in Hc as [_ [tl Hk]].
  unfold level_of. rewrite Hk. exact (Htable _ _ Hk).
Qed.

Lemma step_sums_nonneg (table : gmap string float) (vars : Locals float) (r : Row float) :
  levels_positive_finite table ->
  sums_nonneg vars -> sums_nonneg (step table vars r).
Proof.
  intros Htable [Ht Hw]. unfold sums_nonneg.
  destruct (contributes table r) eqn:Hc.
  - rewrite (step_contributes table vars r Hc). cbn [total_catch weighted_sum].
    pose proof (contributes_positive table r Hc) as Hpos.
    destruct (contributes_level table r Htable Hc) as [Hl _].
    split; apply Binary64Inf.add_nonneg; try assumption.
    + apply Binary64Inf.positive_is_nonneg, Hpos.
    + apply Binary64Inf.mul_nonneg; assumption.
  - destruct (sums_step_idle table vars r Hc) as [-> ->]. split; assumption.
Qed.

Lemma step_sums_infinite (table : gmap string float) (vars : Locals float) (r : Row float) :
  levels_positive_finite table ->
  sums_infinite vars -> sums_infinite (step table vars r).
Proof.
  intros Htable [Ht Hw]. unfold sums_infinite.
  destruct (contributes table r) eqn:Hc.
  - rewrite (step_contributes table vars r Hc). cbn [total_catch weighted_sum].
    pose proof (contributes_positive table r Hc) as Hpos.
    destruct (contributes_level table r Htable Hc) as [Hl _].
    rewrite Ht, Hw. change fadd with PrimFloat.add. change fmul with PrimFloat.mul.
    split; apply Binary64Inf.add_infinity_l.
    + apply Binary64Inf.positive_is_nonneg, Hpos.
    + apply Binary64Inf.mul_nonneg; assumption.
  - destruct (sums_step_idle table vars r Hc) as [-> ->]. split; assumption.
Qed.

Lemma step_infinite_catch (table : gmap string float) (vars : Locals float) (r : Row float) :
  levels_positive_finite table ->
  sums_nonneg vars ->
  contributes table r = true ->
  catch_of r = infinity ->
  sums_infinite (step table vars r).
Proof.
  intros Htable [Ht Hw] Hc Hinf. unfold sums_infinite.
  rewrite (step_contributes table vars r Hc). cbn [total_catch weighted_sum].
  destruct (contributes_level table r Htable Hc) as [Hl Hf].
  rewrite Hinf. change fadd with PrimFloat.add. change fmul with PrimFloat.mul.
  rewrite (Binary64Inf.mul_infinity _ Hl Hf).
  split; apply Binary64Inf.add_infinity_r; assumption.
Qed.

Lemma scan_sums_nonneg (table : gmap string float) (rws : list (Row float)) :
  levels_positive_finite table ->
  forall vars, sums_nonneg vars -> sums_nonneg (scan table rws vars).
Proof.
  intros Htable. induction rws as [| r rws IH]; intros vars Hv; [exact Hv |].
  change (scan table (r :: rws) vars) with (scan table rws (step table vars r)).
  apply IH, step_sums_nonneg; assumption.
Qed.

Lemma scan_sums_infinite (table : gmap string float) (rws : list (Row float)) :
  levels_positive_finite table ->
  forall vars, sums_infinite vars -> sums_infinite (scan table rws vars).
Proof.
  intros Htable. induction rws as [| r rws IH]; intros vars Hv; [exact Hv |].
  change (scan table (r :: rws) vars) with (scan table rws (step table vars r)).
  apply IH, step_sums_infinite; assumption.
Qed.

Lemma TROPHIC_LEVELS_positive_finite : levels_positive_finite TROPHIC_LEVELS.
Proof.
  apply map_Forall_to_list. vm_compute.
  repeat (constructor; [split; reflexivity |]). constructor.
Qed.

(** X7: an infinite catch is not rejected.  For a DataFrame in which
    each of the two labels occurs once: when the levels of the table
    are positive finite numbers and some row with a known species has
    the catch [inf], both sums become infinite and the call returns
    NaN instead of raising. *)
Theorem infinite_catch_gives_nan
    (σ : State float) (l : loc) (df : DataFrame float) (r : Row float) :
  heap σ !! l = Some df ->
  unique_labels df ->
  levels_positive_finite (trophic_levels σ) ->
  r ∈ rows df ->
  catch_kg r = Num infinity ->
  is_Some (trophic_levels σ !! species_name r) ->
  (calculate_mtl (VRef l) σ).1 = Return nan.
Proof.
  intros Hl Huniq Htable Hr Hcatch Hkey.
  rewrite (call_outcome σ l df Hl).
  destruct (outcome_unique (trophic_levels σ) df Huniq) as [-> _].
  apply list_elem_of_split in Hr as (a & b & ->).
  rewrite scan_app.
  change (scan ?t (r :: b) ?v) with (scan t b (step t v r)).
  assert (Hc : contributes (trophic_levels σ) r = true).
  { apply contributes_spec. rewrite Hcatch. split; [reflexivity | exact Hkey]. }
  assert (Hinf : catch_of r = infinity).
  { unfold catch_of. rewrite Hcatch. reflexivity. }
  assert (Ha : sums_nonneg (scan (trophic_levels σ) a init)).
  { apply scan_sums_nonneg; [exact Htable |]. split; reflexivity. }
  pose proof (step_infinite_catch _ _ r Htable Ha Hc Hinf) as Hstep.
  destruct (scan_sums_infinite _ b Htable _ Hstep) as [Ht Hw].
  unfold finish. rewrite Ht, Hw. reflexivity.
Qed.

Lemma infinite_catch_gives_nan_witness :
  (calculate_mtl (VRef 0)
     (state_with TROPHIC_LEVELS
        (frame [("Atlantic cod", 100%float); ("Shrimp", infinity);
                ("Squid", 7%float)]))).1
  = Return nan.
Proof.
  apply (infinite_catch_gives_nan
           (state_with TROPHIC_LEVELS
              (frame [("Atlantic cod", 100%float); ("Shrimp", infinity);
                      ("Squid", 7%float)]))
           0%nat
           (frame [("Atlantic cod", 100%float); ("Shrimp", infinity);
                   ("Squid", 7%float)])
           (mkRow "Shrimp" (Num infinity))).
  - reflexivity.
  - split; reflexivity.
  - exact TROPHIC_LEVELS_positive_finite.
  - right. left.
  - reflexivity.
  - vm_compute. eauto.
Defined.

(** ** The table *)

(** X8: what [test_trophic_level_dictionary] asserts of
    [TROPHIC_LEVELS]: it is not empty, and every level lies between
    [1.0] and [5.0]. *)
Theorem trophic_levels_in_range :
  0 < size TROPHIC_LEVELS /\
  map_Forall (fun _ tl => (1 <=? tl)%float = true /\ (tl <=? 5)%float = true)
             TROPHIC_LEVELS.
Proof.
  split.
  - vm_compute. lia.
  - apply map_Forall_to_list. vm_compute.
    repeat (constructor; [split; reflexivity |]). constructor.
Qed.

(** ** Rounding error of binary64 operations

    This part bounds the error of one rounding: a finite
    positive result of [binary_round_aux] differs from the exact value
    by a factor of at most [1 + 2^-52], as long as the result is not in
    the subnormal range.  From it come the bounds for [+], [*] and [/]
    that the range of the mean rests on. *)

Module Rounding.
Local Open Scope Z_scope.

Lemma digits2_pos_upper (p : positive) :
  Zpos p < 2 ^ Zpos (digits2_pos p).
Proof.
  induction p as [p IH | p IH |]; simpl digits2_pos.
  - rewrite Pos2Z.inj_succ, Z.pow_succ_r by lia. lia.
  - rewrite Pos2Z.inj_succ, Z.pow_succ_r by lia. lia.
  - simpl. lia.
Qed.

(** The number of binary digits is fixed by the two bounds. *)
Lemma digits2_pos_unique (p : positive) (k : Z) :
  2 ^ (k - 1) <= Zpos p < 2 ^ k -> Zpos (digits2_pos p) = k.
Proof.
  intros [Hlo Hhi].
  pose proof (Binary64.digits2_pos_lower p) as Hl.
  pose proof (digits2_pos_upper p) as Hu.
  assert (Hk : 0 < k).
  { destruct (Z.ltb_spec 0 k) as [| Hle]; [assumption |].
    exfalso. apply Zle_lt_or_eq in Hle as [Hneg | ->].
    - rewrite Z.pow_neg_r in Hhi by exact Hneg. lia.
    - simpl in Hhi. lia. }
  assert (k - 1 < Zpos (digits2_pos p)).
  { apply (Z.pow_lt_mono_r_iff 2); lia. }
  assert (Zpos (digits2_pos p) - 1 < k).
  { apply (Z.pow_lt_mono_r_iff 2); lia. }
  lia.
Qed.

(** The shift [shr_fexp] applies, and what it leaves. *)
Definition shift_of (m e : Z) : Z :=
  Z.max 0 (fexp prec emax (Zdigits2 m + e) - e).

Lemma shr_fexp_spec (m e : Z) (l : location) :
  0 < m ->
  shr_m (fst (shr_fexp prec emax m e l)) = m / 2 ^ shift_of m e /\
  snd (shr_fexp prec emax m e l) = e + shift_of m e /\
  (shift_of m e = 0 -> fst (shr_fexp prec emax m e l) = shr_record_of_loc m l).
Proof.
  intros Hm. unfold shr_fexp, shr, shift_of.
  destruct (fexp prec emax (Zdigits2 m + e) - e) as [| n | n] eqn:Hn; cbn [fst snd].
  - rewrite Binary64.shr_record_of_loc_m, Z.max_l, Z.pow_0_r, Z.div_1_r by lia.
    split; [reflexivity |]. split; [lia | reflexivity].
  - rewrite Binary64.iter_pos_shr_m
      by (rewrite Binary64.shr_record_of_loc_m; lia).
    rewrite Binary64.shr_record_of_loc_m, Z.max_r by lia.
    split; [reflexivity |]. split; [reflexivity | lia].
  - rewrite Binary64.shr_record_of_loc_m, Z.max_l, Z.pow_0_r, Z.div_1_r by lia.
    split; [reflexivity |]. split; [lia | reflexivity].
Qed.

Lemma loc_of_shr_record_of_loc (m : Z) (l : location) :
  loc_of_shr_record (shr_record_of_loc m l) = l.
Proof. destruct l as [| []]; reflexivity. Qed.

Lemma round_nearest_even_cases (m : Z) (l : location) :
  (round_nearest_even m l = m \/ round_nearest_even m l = m + 1) /\
  (l = loc_Exact -> round_nearest_even m l = m).
Proof.
  destruct l as [| []]; cbn; try destruct (Z.even m); split; auto; discriminate.
Qed.

Lemma digits2_pos_bounds (p : positive) :
  2 ^ (Zpos (digits2_pos p) - 1) <= Zpos p < 2 ^ Zpos (digits2_pos p).
Proof. split; [apply Binary64.digits2_pos_lower | apply digits2_pos_upper]. Qed.

(** One rounding.  [binary_round_aux false m e l] rounds a number [X]
    of which the caller knows [m * 2^e <= X < (m + 1) * 2^e], and
    [X = m * 2^e] when [l] is [loc_Exact].  When the result is not in
    the subnormal range, it is [infinity] or a float [m' * 2^e'] with
    [m' * 2^e' <= (1 + 2^-52) * m * 2^e] and
    [(m + 1) * 2^e <= (1 + 2^-52) * m' * 2^e'], the latter when [m]
    has at least [prec] digits; with fewer digits and an exact [l]
    nothing is rounded. *)
Lemma binary_round_aux_bounds (m : positive) (e : Z) (l : location) :
  (emin <= e \/ emin <= Zpos (digits2_pos m) + e - prec) ->
  (l = loc_Exact \/ prec <= Zpos (digits2_pos m)) ->
  binary_round_aux prec emax false (Zpos m) e l = S754_infinity false \/
  exists m' e',
    binary_round_aux prec emax false (Zpos m) e l = S754_finite false m' e' /\
    e <= e' /\
    2 ^ 52 * (Zpos m' * 2 ^ (e' - e)) <= (2 ^ 52 + 1) * Zpos m /\
    (prec <= Zpos (digits2_pos m) ->
     2 ^ 52 * (Zpos m + 1) <= (2 ^ 52 + 1) * (Zpos m' * 2 ^ (e' - e))) /\
    (Zpos (digits2_pos m) < prec -> Zpos m' * 2 ^ (e' - e) = Zpos m).
Proof.
  intros P1 P2.
  pose proof (digits2_pos_bounds m) as [Hlo Hhi].
  set (d := Zpos (digits2_pos m)) in *.
  unfold binary_round_aux.
  destruct (shr_fexp_spec (Zpos m) e l) as (Hm1 & He1 & Hrec1); [lia |].
  destruct (shr_fexp prec emax (Zpos m) e l) as [mrs1 e1]. cbn [fst snd] in *.
  unfold shift_of in *. cbn [Zdigits2] in *. fold d in Hm1, He1, Hrec1.
  destruct (Z.le_gt_cases prec d) as [Hd | Hd].
  - (* the mantissa is cut to [prec] digits *)
    assert (Hf : fexp prec emax (d + e) - e = d - prec)
      by (unfold fexp; unfold prec, emin in *; lia).
    rewrite Hf in *. rewrite Z.max_r in * by lia.
    set (k := d - prec) in *.
    assert (Hk : 0 <= k) by (unfold k; lia).
    assert (H2k : 0 < 2 ^ k) by (apply Z.pow_pos_nonneg; lia).
    assert (Hd1 : 2 ^ (d - 1) = 2 ^ k * 2 ^ 52).
    { rewrite <- Z.pow_add_r by lia. f_equal. unfold k, prec. lia. }
    assert (Hd2 : 2 ^ d = 2 ^ k * 2 ^ 53).
    { rewrite <- Z.pow_add_r by lia. f_equal. unfold k, prec. lia. }
    set (m1 := Zpos m / 2 ^ k) in *.
    assert (Hm1lo : 2 ^ 52 <= m1).
    { apply Z.div_le_lower_bound; lia. }
    assert (Hm1hi : m1 < 2 ^ 53).
    { apply Z.div_lt_upper_bound; lia. }
    assert (Hdm : 2 ^ k * m1 <= Zpos m < 2 ^ k * (m1 + 1)).
    { pose proof (Z.mul_div_le (Zpos m) (2 ^ k) H2k).
      pose proof (Z.mul_succ_div_gt (Zpos m) (2 ^ k) H2k).
      fold m1 in H, H0. unfold Z.succ in H0. lia. }
    rewrite Hm1.
    destruct (round_nearest_even_cases m1 (loc_of_shr_record mrs1)) as [Hr _].
    set (m2 := round_nearest_even m1 (loc_of_shr_record mrs1)) in *.
    assert (Hm2 : 2 ^ 52 <= m2 <= 2 ^ 53) by lia.
    destruct (shr_fexp_spec m2 e1 loc_Exact) as (Hm3 & He3 & Hrec3); [lia |].
    destruct (shr_fexp prec emax m2 e1 loc_Exact) as [mrs3 e3]. cbn [fst snd] in *.
    unfold shift_of in *.
    destruct (Z.eq_dec m2 (2 ^ 53)) as [Htop | Htop].
    + (* the rounded mantissa carries into the next binade *)
      assert (Hdig : Zdigits2 m2 = 54) by (rewrite Htop; reflexivity).
      rewrite Hdig in *.
      assert (Hf2 : fexp prec emax (54 + e1) - e1 = 1)
        by (unfold fexp; unfold prec, emin in *; lia).
      rewrite Hf2 in *. change (Z.max 0 1) with 1 in *.
      rewrite Hm3, Htop. change (2 ^ 53 / 2 ^ 1) with (Zpos 4503599627370496).
      destruct (e3 <=? emax - prec); [right | left; reflexivity].
      exists 4503599627370496%positive, e3.
      split; [reflexivity |]. split; [lia |].
      replace (e3 - e) with (k + 1) by lia.
      rewrite Z.pow_add_r by lia. change (2 ^ 1) with 2.
      change (Zpos 4503599627370496) with (2 ^ 52).
      assert (Hm1v : m1 = 2 ^ 53 - 1) by lia.
      rewrite Hm1v in Hdm. change (2 ^ 53) with 9007199254740992 in *.
      change (2 ^ 52) with 4503599627370496 in *.
      split; [nia |]. split; [intros _; nia | lia].
    + assert (Hdig : Zdigits2 m2 = 53).
      { destruct m2 as [| p2 | p2]; try lia. cbn [Zdigits2].
        apply digits2_pos_unique. change (53 - 1) with 52. lia. }
      rewrite Hdig in *.
      assert (Hf2 : fexp prec emax (53 + e1) - e1 = 0)
        by (unfold fexp; unfold prec, emin in *; lia).
      rewrite Hf2 in *. change (Z.max 0 0) with 0 in *.
      rewrite Hm3, Z.pow_0_r, Z.div_1_r.
      destruct m2 as [| p2 | p2] eqn:Em2; try lia.
      destruct (e3 <=? emax - prec); [right | left; reflexivity].
      exists p2, e3. split; [reflexivity |]. split; [lia |].
      replace (e3 - e) with k by lia.
      change (2 ^ 53) with 9007199254740992 in *.
      change (2 ^ 52) with 4503599627370496 in *.
      split; [nia |]. split; [intros _; nia | lia].
  - (* nothing to cut: the mantissa is kept as it is *)
    destruct P2 as [-> | P2]; [| lia].
    assert (Hf : Z.max 0 (fexp prec emax (d + e) - e) = 0)
      by (unfold fexp; unfold prec, emin in *; lia).
    rewrite Hf in *. rewrite Hrec1 by reflexivity.
    cbn [shr_record_of_loc shr_m loc_of_shr_record round_nearest_even].
    destruct (shr_fexp_spec (Zpos m) e1 loc_Exact) as (Hm3 & He3 & _); [lia |].
    destruct (shr_fexp prec emax (Zpos m) e1 loc_Exact) as [mrs3 e3]. cbn [fst snd] in *.
    unfold shift_of in *. cbn [Zdigits2] in *. fold d in Hm3, He3.
    replace e1 with e in * by lia. rewrite Hf in *.
    rewrite Hm3, Z.pow_0_r, Z.div_1_r.
    destruct (e3 <=? emax - prec); [right | left; reflexivity].
    exists m, e3. split; [reflexivity |]. split; [lia |].
    replace (e3 - e) with 0 by lia. rewrite Z.pow_0_r.
    split; [lia |]. split; [lia | intros _; lia].
Qed.
End Rounding.

(** ** The value of a float

    [value_of] reads a finite float as the rational it denotes; the
    zeros, the infinities and NaN are read as [0], so a float whose
    value is positive is a positive finite number. *)

Definition scaled (m e : Z) : Q := inject_Z m * 2 ^ e.

Definition SFvalue (x : spec_float) : Q :=
  match x with
  | S754_finite s m e => scaled (cond_Zopp s (Zpos m)) e
  | _ => 0
  end.

Definition value_of (x : float) : Q := SFvalue (Prim2SF x).

(** The relative error of one rounding to a normal number is at most
    [eps = 2^-52]. *)
Definition eps : Q := 1 # 4503599627370496.

Module Values.
Local Open Scope Q_scope.

Lemma two_power_pos (e : Z) : 0 < 2 ^ e.
Proof. apply Qpower_0_lt. reflexivity. Qed.

Lemma two_power_plus (a b : Z) : 2 ^ (a + b) == 2 ^ a * 2 ^ b.
Proof. apply Qpower_plus. discriminate. Qed.

Lemma scaled_plus (m n e : Z) : scaled (m + n) e == scaled m e + scaled n e.
Proof. unfold scaled. rewrite inject_Z_plus. ring. Qed.

Lemma scaled_mult (m n e f : Z) : scaled (m * n) (e + f) == scaled m e * scaled n f.
Proof. unfold scaled. rewrite inject_Z_mult, two_power_plus. ring. Qed.

Lemma scaled_shift (m e k : Z) :
  (0 <= k)%Z -> scaled (m * 2 ^ k) e == scaled m (e + k).
Proof.
  intros Hk. unfold scaled.
  rewrite inject_Z_mult, Zpower_Qpower, two_power_plus by exact Hk.
  change (inject_Z 2) with 2. ring.
Qed.

Lemma scaled_le (m n e : Z) : (m <= n)%Z -> scaled m e <= scaled n e.
Proof.
  intros H. unfold scaled. apply Qmult_le_compat_r.
  - rewrite <- Zle_Qle. exact H.
  - apply Qlt_le_weak, two_power_pos.
Qed.

Lemma scaled_lt (m n e : Z) : (m < n)%Z -> scaled m e < scaled n e.
Proof.
  intros H. unfold scaled. apply Qmult_lt_compat_r.
  - apply two_power_pos.
  - rewrite <- Zlt_Qlt. exact H.
Qed.

Lemma scaled_le_inv (m n e : Z) : scaled m e <= scaled n e -> (m <= n)%Z.
Proof.
  intros H. destruct (Z.le_gt_cases m n) as [Hle | Hgt]; [exact Hle |].
  apply (scaled_lt _ _ e) in Hgt. exfalso. apply (Qlt_not_le _ _ Hgt H).
Qed.

Lemma scaled_pos (p : positive) (e : Z) : 0 < scaled (Zpos p) e.
Proof.
  unfold scaled. apply Qmult_lt_0_compat; [reflexivity | apply two_power_pos].
Qed.

Lemma scaled_two_power (k e : Z) : (0 <= k)%Z -> scaled (2 ^ k) e == 2 ^ (k + e).
Proof.
  intros Hk. unfold scaled. rewrite Zpower_Qpower, two_power_plus by exact Hk.
  reflexivity.
Qed.

(** The binade of a positive mantissa with its exponent. *)
Lemma scaled_magnitude (p : positive) (e : Z) :
  2 ^ (Zpos (digits2_pos p) - 1 + e) <= scaled (Zpos p) e /\
  scaled (Zpos p) e < 2 ^ (Zpos (digits2_pos p) + e).
Proof.
  destruct (Rounding.digits2_pos_bounds p) as [Hlo Hhi].
  split.
  - rewrite <- scaled_two_power by lia. apply scaled_le, Hlo.
  - rewrite <- scaled_two_power by lia. apply scaled_lt, Hhi.
Qed.

Lemma two_power_lt_inv (a b : Z) : 2 ^ a < 2 ^ b -> (a < b)%Z.
Proof. intros H. apply (Qpower_lt_compat_l_inv 2); [exact H | reflexivity]. Qed.

(** An inequality between integers, read on the scaled numbers. *)
Lemma scaled_cross (a b x y e : Z) :
  (a * x <= b * y)%Z -> inject_Z a * scaled x e <= inject_Z b * scaled y e.
Proof.
  intros H. unfold scaled. rewrite !Qmult_assoc, <- !inject_Z_mult.
  apply Qmult_le_compat_r; [| apply Qlt_le_weak, two_power_pos].
  rewrite <- Zle_Qle. exact H.
Qed.

(** One rounding, on values. *)
Lemma binary_round_aux_value (m : positive) (e : Z) (l : location) (m' : positive) (e' : Z) :
  (emin <= e \/ emin <= Zpos (digits2_pos m) + e - prec)%Z ->
  (l = loc_Exact \/ prec <= Zpos (digits2_pos m))%Z ->
  binary_round_aux prec emax false (Zpos m) e l = S754_finite false m' e' ->
  scaled (Zpos m') e' <= (1 + eps) * scaled (Zpos m) e /\
  ((prec <= Zpos (digits2_pos m))%Z ->
   scaled (Zpos m + 1) e <= (1 + eps) * scaled (Zpos m') e') /\
  ((Zpos (digits2_pos m) < prec)%Z -> scaled (Zpos m') e' == scaled (Zpos m) e).
Proof.
  intros P1 P2 Hr.
  destruct (Rounding.binary_round_aux_bounds m e l P1 P2)
    as [Hinf | (m0 & e0 & Hfin & He & Hup & Hlow & Heq)]; [congruence |].
  rewrite Hr in Hfin. injection Hfin as <- <-.
  assert (Hv : scaled (Zpos m') e' == scaled (Zpos m' * 2 ^ (e' - e)) e).
  { rewrite scaled_shift by lia. replace (e + (e' - e))%Z with e' by lia. reflexivity. }
  rewrite Hv. split; [| split].
  - apply (scaled_cross _ _ _ _ e) in Hup.
    change (inject_Z (2 ^ 52)) with (4503599627370496 # 1) in Hup.
    change (inject_Z (2 ^ 52 + 1)) with (4503599627370497 # 1) in Hup.
    unfold eps. lra.
  - intros Hd. specialize (Hlow Hd). apply (scaled_cross _ _ _ _ e) in Hlow.
    change (inject_Z (2 ^ 52)) with (4503599627370496 # 1) in Hlow.
    change (inject_Z (2 ^ 52 + 1)) with (4503599627370497 # 1) in Hlow.
    unfold eps. lra.
  - intros Hd. rewrite (Heq Hd). reflexivity.
Qed.

End Values.

(** ** The error of [+], [*] and [/] on positive floats *)

Module Operations.
Import Values.
Local Open Scope Q_scope.

(** Zero or a positive finite number. *)
Definition SFbounded (x : spec_float) : bool :=
  match x with
  | S754_zero false | S754_finite false _ _ => true
  | _ => false
  end.

Lemma one_plus_u_pos : 0 < 1 + eps.
Proof. reflexivity. Qed.

Lemma SFvalue_nonneg (x : spec_float) : SFbounded x = true -> 0 <= SFvalue x.
Proof.
  destruct x as [[] | [] | | [] m e]; cbn [SFbounded SFvalue cond_Zopp];
    try discriminate; intros _; try apply Qle_refl.
  apply Qlt_le_weak, scaled_pos.
Qed.

Lemma valid_digits (s : bool) (m : positive) (e : Z) :
  valid_binary (S754_finite s m e) = true ->
  (emin <= e /\ Zpos (digits2_pos m) <= prec /\
   (emin < e -> Zpos (digits2_pos m) = prec))%Z.
Proof.
  unfold valid_binary, SpecFloat.valid_binary, bounded, canonical_mantissa, fexp.
  intros H. apply andb_prop in H as [H _]. apply Z.eqb_eq in H.
  unfold prec, emin in *. lia.
Qed.

Lemma iter_xO (m d : positive) :
  Zpos (Pos.iter xO m d) = (Zpos m * 2 ^ Zpos d)%Z.
Proof.
  induction d as [| d IH] using Pos.peano_ind.
  - cbn [Pos.iter]. rewrite Z.pow_1_r. lia.
  - rewrite Pos.iter_succ, Pos2Z.inj_succ, Z.pow_succ_r by lia.
    rewrite Pos2Z.inj_xO, IH. ring.
Qed.

Lemma shl_align_value (m : positive) (e e' : Z) :
  scaled (Zpos (fst (shl_align m e e'))) (snd (shl_align m e e')) == scaled (Zpos m) e.
Proof.
  unfold shl_align. destruct (e' - e)%Z as [| d | d] eqn:E; cbn [fst snd];
    try reflexivity.
  rewrite iter_xO, scaled_shift by lia.
  replace (e' + Zpos d)%Z with e by lia. reflexivity.
Qed.

(** Rounding an exactly known number: [binary_round]. *)
Lemma binary_round_value (m : positive) (e : Z) (m' : positive) (e' : Z) :
  (emin <= e)%Z ->
  binary_round prec emax false m e = S754_finite false m' e' ->
  scaled (Zpos m') e' <= (1 + eps) * scaled (Zpos m) e /\
  scaled (Zpos m) e <= (1 + eps) * scaled (Zpos m') e'.
Proof.
  intros He. unfold binary_round.
  pose proof (shl_align_value m e (fexp prec emax (Zpos (digits2_pos m) + e))) as Hv.
  pose proof (Binary64.shl_align_exp m e (fexp prec emax (Zpos (digits2_pos m) + e))) as Hx.
  destruct (shl_align m e _) as [mz ez]. cbn [fst snd] in Hv, Hx.
  intros Hr.
  assert (P1 : (emin <= ez \/ emin <= Zpos (digits2_pos mz) + ez - prec)%Z).
  { left. rewrite Hx. unfold fexp. lia. }
  destruct (binary_round_aux_value mz ez loc_Exact m' e' P1 (or_introl eq_refl) Hr)
    as (Hup & Hlow & Heq).
  rewrite Hv in Hup. split; [exact Hup |].
  pose proof (scaled_pos m' e') as Hpos.
  destruct (Z.le_gt_cases prec (Zpos (digits2_pos mz))) as [Hd | Hd].
  - specialize (Hlow Hd).
    assert (Hle : scaled (Zpos mz) ez <= scaled (Zpos mz + 1) ez) by (apply scaled_le; lia).
    rewrite Hv in Hle. lra.
  - specialize (Heq Hd). rewrite Hv in Heq. rewrite <- Heq. unfold eps. lra.
Qed.

(** *** Addition *)

Lemma SF64add_bounded_inv (x y : spec_float) :
  Binary64Inf.SFnonneg x = true -> Binary64Inf.SFnonneg y = true ->
  SFbounded (SF64add x y) = true ->
  SFbounded x = true /\ SFbounded y = true.
Proof.
  destruct x as [[] | [] | | [] mx ex]; try discriminate;
    destruct y as [[] | [] | | [] my ey]; try discriminate;
    intros _ _ H; try (split; reflexivity); discriminate H.
Qed.

Lemma SF64add_value (x y : spec_float) :
  valid_binary x = true -> valid_binary y = true ->
  SFbounded x = true -> SFbounded y = true ->
  SFbounded (SF64add x y) = true ->
  SFvalue (SF64add x y) <= (1 + eps) * (SFvalue x + SFvalue y) /\
  SFvalue x + SFvalue y <= (1 + eps) * SFvalue (SF64add x y).
Proof.
  intros Vx Vy Bx By.
  pose proof (SFvalue_nonneg x Bx) as Nx. pose proof (SFvalue_nonneg y By) as Ny.
  destruct x as [[] | [] | | [] mx ex]; try discriminate Bx;
    destruct y as [[] | [] | | [] my ey]; try discriminate By.
  - intros _. cbn. split; discriminate.
  - intros _. change (SF64add _ _) with (S754_finite false my ey).
    change (SFvalue (S754_zero false)) with 0. unfold eps. split; lra.
  - intros _. change (SF64add _ _) with (S754_finite false mx ex).
    change (SFvalue (S754_zero false)) with 0. unfold eps. split; lra.
  - unfold SF64add, SFadd. cbn [cond_Zopp].
    apply valid_digits in Vx as (Vx & _), Vy as (Vy & _).
    pose proof (shl_align_value mx ex (Z.min ex ey)) as Hx.
    pose proof (shl_align_value my ey (Z.min ex ey)) as Hy.
    rewrite Binary64.shl_align_exp in Hx, Hy.
    replace (Z.min ex (Z.min ex ey)) with (Z.min ex ey) in Hx by lia.
    replace (Z.min ey (Z.min ex ey)) with (Z.min ex ey) in Hy by lia.
    rewrite <- Pos2Z.inj_add. cbn [binary_normalize].
    set (mz := (fst (shl_align mx ex (Z.min ex ey)) + fst (shl_align my ey (Z.min ex ey)))%positive).
    assert (Hsum : scaled (Zpos mz) (Z.min ex ey)
                   == SFvalue (S754_finite false mx ex) + SFvalue (S754_finite false my ey)).
    { unfold mz. rewrite Pos2Z.inj_add, scaled_plus, Hx, Hy. reflexivity. }
    pose proof (Binary64.binary_round_pos mz (Z.min ex ey) ltac:(lia)) as Hpos.
    destruct (binary_round prec emax false mz (Z.min ex ey))
      as [[] | [] | | [] m' e'] eqn:Hr; try discriminate Hpos; try discriminate.
    intros _.
    destruct (binary_round_value mz (Z.min ex ey) m' e' ltac:(lia) Hr) as [Hup Hlow].
    rewrite Hsum in Hup, Hlow. split; assumption.
Qed.

(** *** Multiplication *)

Lemma digits2_pos_mul (p q : positive) :
  (Zpos (digits2_pos p) + Zpos (digits2_pos q) - 1 <= Zpos (digits2_pos (p * q)))%Z.
Proof.
  destruct (Rounding.digits2_pos_bounds p) as [Hp _].
  destruct (Rounding.digits2_pos_bounds q) as [Hq _].
  destruct (Rounding.digits2_pos_bounds (p * q)) as [_ Hpq].
  assert (H : (2 ^ (Zpos (digits2_pos p) - 1 + (Zpos (digits2_pos q) - 1))
               < 2 ^ Zpos (digits2_pos (p * q)))%Z).
  { rewrite Z.pow_add_r by lia. rewrite Pos2Z.inj_mul in Hpq. nia. }
  apply Z.pow_lt_mono_r_iff in H; lia.
Qed.

Lemma SF64mul_bounded_inv (x y : spec_float) :
  Binary64.SFpositive x = true -> Binary64.SFpositive y = true ->
  SFbounded (SF64mul x y) = true ->
  (exists mx ex, x = S754_finite false mx ex) /\
  (exists my ey, y = S754_finite false my ey).
Proof.
  destruct x as [[] | [] | | [] mx ex]; try discriminate;
    destruct y as [[] | [] | | [] my ey]; try discriminate;
    intros _ _ H; try discriminate H.
  split; eauto.
Qed.

(** A product of a number that is at least [1] and a normal number. *)
Lemma SF64mul_value (mt : positive) (et : Z) (mc : positive) (ec : Z) :
  1 <= scaled (Zpos mt) et ->
  valid_binary (S754_finite false mc ec) = true ->
  Zpos (digits2_pos mc) = prec ->
  SFbounded (SF64mul (S754_finite false mt et) (S754_finite false mc ec)) = true ->
  SFvalue (SF64mul (S754_finite false mt et) (S754_finite false mc ec))
  <= (1 + eps) * (scaled (Zpos mt) et * scaled (Zpos mc) ec) /\
  scaled (Zpos mt) et * scaled (Zpos mc) ec
  <= (1 + eps) * SFvalue (SF64mul (S754_finite false mt et) (S754_finite false mc ec)).
Proof.
  intros Ht Vc Hc. unfold SF64mul, SFmul. cbn [xorb].
  apply valid_digits in Vc as (Vc & _).
  assert (Hdt : (1 <= Zpos (digits2_pos mt) + et)%Z).
  { destruct (scaled_magnitude mt et) as [_ Hhi].
    assert (H : 2 ^ 0 < 2 ^ (Zpos (digits2_pos mt) + et)).
    { change (2 ^ 0) with 1. lra. }
    apply two_power_lt_inv in H. lia. }
  pose proof (digits2_pos_mul mt mc) as Hdig.
  assert (P1 : (emin <= et + ec \/
                emin <= Zpos (digits2_pos (mt * mc)) + (et + ec) - prec)%Z)
    by (right; lia).
  pose proof (Binary64Inf.binary_round_aux_nonneg (Zpos (mt * mc)) (et + ec) loc_Exact
                ltac:(lia)) as Hnn.
  destruct (binary_round_aux prec emax false (Zpos (mt * mc)) (et + ec) loc_Exact)
    as [[] | [] | | [] m' e'] eqn:Hr; try discriminate.
  - (* a zero result is excluded *)
    exfalso.
    destruct (Rounding.binary_round_aux_bounds (mt * mc) (et + ec) loc_Exact P1
                (or_introl eq_refl)) as [H | (m0 & e0 & H & _)]; congruence.
  - intros _.
    destruct (binary_round_aux_value (mt * mc) (et + ec) loc_Exact m' e' P1
                (or_introl eq_refl) Hr) as (Hup & Hlow & _).
    rewrite Pos2Z.inj_mul, scaled_mult in Hup.
    split; [exact Hup |].
    assert (Hd : (prec <= Zpos (digits2_pos (mt * mc)))%Z) by lia.
    specialize (Hlow Hd).
    assert (Hle : scaled (Zpos (mt * mc)) (et + ec) <= scaled (Zpos (mt * mc) + 1) (et + ec))
      by (apply scaled_le; lia).
    rewrite Pos2Z.inj_mul, scaled_mult in Hle. cbn [SFvalue cond_Zopp].
    rewrite Pos2Z.inj_mul in Hlow. lra.
Qed.

(** *** Division *)

(** The integer quotient [SFdiv_core_binary] hands to the rounding,
    when the quotient is not in the subnormal range. *)
Lemma SFdiv_core_binary_spec (mx : positive) (ex : Z) (my : positive) (ey : Z) :
  (emin <= Zpos (digits2_pos mx) + ex - (Zpos (digits2_pos my) + ey) - prec)%Z ->
  (Zpos (digits2_pos mx) <= prec)%Z ->
  exists (q : positive) (e' : Z) (l : location),
    SFdiv_core_binary prec emax (Zpos mx) ex (Zpos my) ey = (Zpos q, e', l) /\
    (prec <= Zpos (digits2_pos q))%Z /\
    (emin <= e')%Z /\
    (0 <= ex - ey - e')%Z /\
    (Zpos q * Zpos my <= Zpos mx * 2 ^ (ex - ey - e') < (Zpos q + 1) * Zpos my)%Z.
Proof.
  intros Hno Hd1.
  destruct (Rounding.digits2_pos_bounds mx) as [Hxlo Hxhi].
  destruct (Rounding.digits2_pos_bounds my) as [Hylo Hyhi].
  unfold SFdiv_core_binary. cbv zeta. cbn [Zdigits2].
  set (d1 := Zpos (digits2_pos mx)) in *. set (d2 := Zpos (digits2_pos my)) in *.
  assert (Hd2 : (1 <= d2)%Z) by (unfold d2; lia).
  replace (Z.min (fexp prec emax (d1 + ex - (d2 + ey))) (ex - ey))
    with (d1 + ex - (d2 + ey) - prec)%Z
    by (unfold fexp; unfold prec, emin in *; lia).
  set (e' := (d1 + ex - (d2 + ey) - prec)%Z).
  assert (Hs : (ex - ey - e' = prec - d1 + d2)%Z) by (unfold e'; lia).
  destruct (ex - ey - e')%Z as [| s | s] eqn:Es; try lia.
  rewrite Z.shiftl_mul_pow2 by lia.
  pose proof (Z_div_mod (Zpos mx * 2 ^ Zpos s) (Zpos my) ltac:(lia)) as Hdm.
  destruct (Z.div_eucl (Zpos mx * 2 ^ Zpos s) (Zpos my)) as [q r].
  destruct Hdm as [Hdm Hr].
  assert (Hpow : (2 ^ (d1 - 1) * 2 ^ Zpos s = 2 ^ 52 * 2 ^ d2)%Z).
  { rewrite <- !Z.pow_add_r by lia. f_equal. unfold prec in *. lia. }
  assert (H2s : (0 < 2 ^ Zpos s)%Z) by (apply Z.pow_pos_nonneg; lia).
  assert (Hq : (2 ^ 52 <= q)%Z).
  { change (2 ^ 52)%Z with 4503599627370496%Z in *. nia. }
  destruct q as [| q | q]; try (change (2 ^ 52)%Z with 4503599627370496%Z in Hq; lia).
  exists q, e', (new_location (Zpos my) r).
  split; [reflexivity |]. split; [| split; [| split]].
  - pose proof (Rounding.digits2_pos_upper q) as Hqhi.
    assert (H : (2 ^ 52 < 2 ^ Zpos (digits2_pos q))%Z) by lia.
    apply Z.pow_lt_mono_r_iff in H; unfold prec; lia.
  - unfold e'. lia.
  - lia.
  - rewrite Es, Hdm. split; [| rewrite Z.mul_add_distr_r]; lia.
Qed.

Lemma SF64div_value (mx : positive) (ex : Z) (my : positive) (ey : Z) :
  valid_binary (S754_finite false mx ex) = true ->
  scaled (Zpos my) ey <= 2 * scaled (Zpos mx) ex ->
  SFbounded (SF64div (S754_finite false mx ex) (S754_finite false my ey)) = true ->
  SFvalue (SF64div (S754_finite false mx ex) (S754_finite false my ey)) * scaled (Zpos my) ey
  <= (1 + eps) * scaled (Zpos mx) ex /\
  scaled (Zpos mx) ex
  <= (1 + eps) * (SFvalue (SF64div (S754_finite false mx ex) (S754_finite false my ey))
                * scaled (Zpos my) ey).
Proof.
  intros Vx Hratio.
  apply valid_digits in Vx as (_ & Vx & _).
  assert (Hno : (emin <= Zpos (digits2_pos mx) + ex - (Zpos (digits2_pos my) + ey) - prec)%Z).
  { destruct (scaled_magnitude mx ex) as [_ Hxhi].
    destruct (scaled_magnitude my ey) as [Hylo _].
    assert (H : 2 ^ (Zpos (digits2_pos my) - 1 + ey) < 2 ^ (1 + (Zpos (digits2_pos mx) + ex))).
    { rewrite (two_power_plus 1). change (2 ^ 1) with 2. lra. }
    apply two_power_lt_inv in H.
    change emin with (-1074)%Z. change prec with 53%Z. lia. }
  destruct (SFdiv_core_binary_spec mx ex my ey Hno Vx)
    as (q & e' & l & Hcore & Hdq & He' & Hs & Hq).
  unfold SF64div, SFdiv. rewrite Hcore. cbn [xorb].
  pose proof (Binary64.binary_round_aux_pos (Zpos q) e' l ltac:(lia) He') as Hpos.
  destruct (binary_round_aux prec emax false (Zpos q) e' l)
    as [[] | [] | | [] m' e''] eqn:Hr; try discriminate Hpos; try discriminate.
  intros _. cbn [SFvalue cond_Zopp].
  destruct (binary_round_aux_value q e' l m' e'' (or_introl He') (or_intror Hdq) Hr)
    as (Hup & Hlow & _).
  specialize (Hlow Hdq).
  assert (Hx : scaled (Zpos mx) ex == scaled (Zpos mx * 2 ^ (ex - ey - e')) (e' + ey)).
  { rewrite scaled_shift by exact Hs. replace (e' + ey + (ex - ey - e'))%Z with ex by lia.
    reflexivity. }
  destruct Hq as [Hq1 Hq2].
  apply (scaled_le _ _ (e' + ey)) in Hq1. apply (scaled_lt _ _ (e' + ey)) in Hq2.
  rewrite <- Hx in Hq1, Hq2. rewrite scaled_mult in Hq1, Hq2.
  pose proof (scaled_pos my ey) as Hy.
  set (vy := scaled (Zpos my) ey) in *. set (vx := scaled (Zpos mx) ex) in *.
  set (v := scaled (Zpos m') e'') in *.
  set (a := scaled (Zpos q) e') in *. set (b := scaled (Zpos q + 1) e') in *.
  assert (H1 : v * vy <= (1 + eps) * a * vy) by (apply Qmult_le_compat_r; lra).
  assert (H2 : b * vy <= (1 + eps) * v * vy) by (apply Qmult_le_compat_r; lra).
  split.
  - apply Qle_trans with ((1 + eps) * a * vy); [exact H1 |].
    rewrite <- Qmult_assoc. apply Qmult_le_l; [apply one_plus_u_pos | exact Hq1].
  - apply Qle_trans with (b * vy); [apply Qlt_le_weak, Hq2 |].
    rewrite Qmult_assoc. exact H2.
Qed.

End Operations.

(** ** The range of the mean, up to rounding *)

(** A float that is zero or a positive finite number. *)
Definition finite_nonneg (x : float) : Prop :=
  Operations.SFbounded (Prim2SF x) = true.

Module FloatError.
Import Values Operations.
Local Open Scope Q_scope.

Lemma scaled_neg (m : positive) (e : Z) : scaled (Zneg m) e < 0.
Proof.
  assert (H : scaled (Zneg m) e < scaled 0 e) by (apply scaled_lt; lia).
  unfold scaled at 2 in H. change (inject_Z 0) with 0 in H. lra.
Qed.

(** A float whose value is positive is a positive finite number. *)
Lemma value_pos_finite (x : float) :
  0 < value_of x -> exists m e, Prim2SF x = S754_finite false m e.
Proof.
  unfold value_of. destruct (Prim2SF x) as [s | s | | [] m e]; cbn [SFvalue cond_Zopp Z.opp];
    intros H; try (exfalso; apply (Qlt_irrefl 0 H)); [| eauto].
  exfalso. change (- Zpos m)%Z with (Zneg m) in H. pose proof (scaled_neg m e). lra.
Qed.

Lemma finite_positive_tests (x : float) (m : positive) (e : Z) :
  Prim2SF x = S754_finite false m e ->
  (0 <? x)%float = true /\ (x <? infinity)%float = true.
Proof.
  intros H. rewrite Binary64.ltb_zero_spec, FloatAxioms.ltb_spec, H. split; reflexivity.
Qed.

Lemma finite_nonneg_value (x : float) : finite_nonneg x -> 0 <= value_of x.
Proof. apply SFvalue_nonneg. Qed.

(** A normal number has a full mantissa. *)
Lemma normal_digits (c : float) (m : positive) (e : Z) :
  Prim2SF c = S754_finite false m e ->
  (0x1p-1022 <=? c)%float = true ->
  Zpos (digits2_pos m) = prec.
Proof.
  intros Hc. pose proof (Prim2SF_valid c) as V. rewrite Hc in V.
  apply valid_digits in V as (Ve & Vd & Vn).
  rewrite FloatAxioms.leb_spec, Hc.
  change (Prim2SF 0x1p-1022) with (S754_finite false 4503599627370496 (-1074)).
  unfold SFleb. cbn [SFcompare].
  destruct (Z.compare_spec (-1074) e) as [He | He | He].
  - intros Hm.
    assert (Hle : (4503599627370496 <= m)%positive).
    { unfold Pos.le, Pos.compare. destruct (Pos.compare_cont Eq 4503599627370496 m);
        discriminate. }
    pose proof (Rounding.digits2_pos_upper m) as Hup.
    assert (H : (2 ^ 52 < 2 ^ Zpos (digits2_pos m))%Z).
    { change (2 ^ 52)%Z with 4503599627370496%Z. lia. }
    apply Z.pow_lt_mono_r_iff in H; [| lia | lia].
    change prec with 53%Z in *. lia.
  - intros _. apply Vn. change emin with (-1074)%Z. exact He.
  - discriminate.
Qed.

Lemma add_value (x y : float) :
  Binary64Inf.nonneg x -> Binary64Inf.nonneg y -> finite_nonneg (x + y) ->
  finite_nonneg x /\ finite_nonneg y /\
  value_of (x + y) <= (1 + eps) * (value_of x + value_of y) /\
  value_of x + value_of y <= (1 + eps) * value_of (x + y).
Proof.
  unfold Binary64Inf.nonneg, finite_nonneg, value_of. rewrite FloatAxioms.add_spec.
  intros Nx Ny B.
  destruct (SF64add_bounded_inv _ _ Nx Ny B) as [Bx By].
  split; [exact Bx |]. split; [exact By |].
  apply SF64add_value; auto using Prim2SF_valid.
Qed.

Lemma mul_value (tl c : float) :
  1 <= value_of tl -> (0 <? c)%float = true -> (0x1p-1022 <=? c)%float = true ->
  finite_nonneg (tl * c) ->
  finite_nonneg c /\ 0 < value_of c /\
  value_of (tl * c) <= (1 + eps) * (value_of tl * value_of c) /\
  value_of tl * value_of c <= (1 + eps) * value_of (tl * c).
Proof.
  intros Ht Hc Hn.
  destruct (value_pos_finite tl ltac:(lra)) as (mt & et & Etl).
  unfold finite_nonneg, value_of in *. rewrite FloatAxioms.mul_spec.
  rewrite Binary64.ltb_zero_spec in Hc.
  pose proof (Prim2SF_valid c) as Vc.
  pose proof (fun m e => normal_digits c m e) as Hd.
  rewrite Etl in *. cbn [SFvalue cond_Zopp] in *.
  destruct (Prim2SF c) as [[] | [] | | [] mc ec]; try discriminate Hc;
    [intros H; discriminate H |].
  intros B. cbn [SFvalue cond_Zopp].
  split; [reflexivity |]. split; [apply scaled_pos |].
  apply SF64mul_value; auto. exact (Hd mc ec eq_refl Hn).
Qed.

Lemma div_finite (x y : float) :
  Binary64Inf.nonneg x -> (0 <? y)%float = true ->
  (0 <? x / y)%float = true -> (x / y <? infinity)%float = true ->
  (exists mx ex, Prim2SF x = S754_finite false mx ex) /\
  (exists my ey, Prim2SF y = S754_finite false my ey).
Proof.
  unfold Binary64Inf.nonneg.
  rewrite !Binary64.ltb_zero_spec, FloatAxioms.ltb_spec, FloatAxioms.div_spec.
  destruct (Prim2SF x) as [[] | [] | | [] mx ex]; try discriminate;
    destruct (Prim2SF y) as [[] | [] | | [] my ey]; try discriminate;
    intros _ _ H1 H2; try discriminate H1; try discriminate H2.
  split; eauto.
Qed.

Lemma div_value (x y : float) (mx : positive) (ex : Z) (my : positive) (ey : Z) :
  Prim2SF x = S754_finite false mx ex ->
  Prim2SF y = S754_finite false my ey ->
  value_of y <= 2 * value_of x ->
  (0 <? x / y)%float = true -> (x / y <? infinity)%float = true ->
  value_of (x / y) * value_of y <= (1 + eps) * value_of x /\
  value_of x <= (1 + eps) * (value_of (x / y) * value_of y).
Proof.
  intros Ex Ey Hratio H0 Hf.
  destruct (Binary64Inf.finite_positive _ H0 Hf) as (m & e & Hq).
  pose proof (Prim2SF_valid x) as Vx.
  unfold value_of in *. rewrite FloatAxioms.div_spec in *. rewrite Ex, Ey in *.
  cbn [SFvalue cond_Zopp] in Hratio |- *.
  apply SF64div_value; [exact Vx | exact Hratio |].
  rewrite Hq. reflexivity.
Qed.

(** *** Powers of [1 + eps] *)

Definition growth (k : nat) : Q := (1 + eps) ^ Z.of_nat k.

Lemma growth_succ (k : nat) : growth (S k) == (1 + eps) * growth k.
Proof.
  unfold growth. rewrite Nat2Z.inj_succ. unfold Z.succ.
  rewrite Qpower_plus by discriminate. change ((1 + eps) ^ 1) with (1 + eps). ring.
Qed.

Lemma growth_ge_1 (k : nat) : 1 <= growth k.
Proof.
  induction k as [| k IH]; [discriminate |].
  rewrite growth_succ. unfold eps in *. nra.
Qed.

(** [(1 + eps)^k <= 1 / (1 - k eps)], without the division. *)
Lemma growth_bound (k : nat) :
  growth k * (1 - inject_Z (Z.of_nat k) * eps) <= 1.
Proof.
  induction k as [| k IH].
  - unfold growth. cbn. discriminate.
  - rewrite growth_succ, Nat2Z.inj_succ. unfold Z.succ. rewrite inject_Z_plus.
    pose proof (growth_ge_1 k) as Hg.
    assert (Ha : 0 <= inject_Z (Z.of_nat k)).
    { change 0 with (inject_Z 0). rewrite <- Zle_Qle. lia. }
    change (inject_Z 1) with 1.
    set (P := growth k) in *. set (a := inject_Z (Z.of_nat k)) in *.
    assert (Hpa : 0 <= P * a) by (apply Qmult_le_0_compat; lra).
    unfold eps in *. nra.
Qed.

Lemma growth_linear (k : nat) :
  inject_Z (Z.of_nat k) * eps <= 1 # 2 ->
  growth k <= 1 + 2 * (inject_Z (Z.of_nat k) * eps).
Proof.
  intros Hk. pose proof (growth_bound k) as Hb. pose proof (growth_ge_1 k) as Hg.
  assert (Ha : 0 <= inject_Z (Z.of_nat k) * eps).
  { apply Qmult_le_0_compat; [| discriminate].
    change 0 with (inject_Z 0). rewrite <- Zle_Qle. lia. }
  set (P := growth k) in *. set (a := inject_Z (Z.of_nat k) * eps) in *.
  assert (H2 : P <= 2).
  { assert (0 <= P * ((1 # 2) - a)) by (apply Qmult_le_0_compat; lra). lra. }
  assert (H3 : 0 <= (2 - P) * a) by (apply Qmult_le_0_compat; lra).
  lra.
Qed.

(** *** One row, and the division, on values *)

Lemma ratio_step (lo hi g T W c t p T' W' : Q) :
  0 < lo -> lo <= t -> t <= hi -> 1 + eps <= g ->
  0 <= T -> 0 <= W -> 0 <= c -> 0 <= p ->
  lo * T <= g * W -> W <= hi * g * T ->
  p <= (1 + eps) * (t * c) -> t * c <= (1 + eps) * p ->
  T' <= (1 + eps) * (T + c) -> T + c <= (1 + eps) * T' ->
  W' <= (1 + eps) * (W + p) -> W + p <= (1 + eps) * W' ->
  lo * T' <= ((1 + eps) * ((1 + eps) * g)) * W' /\
  W' <= hi * ((1 + eps) * ((1 + eps) * g)) * T'.
Proof.
  intros Hlo Hlt Hth Hg HT HW Hc Hp H1 H2 H3 H4 H5 H6 H7 H8.
  set (r := 1 + eps) in *.
  assert (Hr : 1 <= r) by (unfold r, eps; lra).
  assert (Hhi : 0 < hi) by lra.
  split.
  - (* lo T' <= r lo (T + c) <= r (g W + t c) <= r (g W + r p) <= r g (W + p) <= r g r W' *)
    assert (A1 : lo * T' <= lo * (r * (T + c))) by (apply Qmult_le_l; lra).
    assert (A2 : lo * c <= t * c) by (apply Qmult_le_compat_r; lra).
    assert (A3 : r * p <= g * p) by (apply Qmult_le_compat_r; lra).
    assert (A4 : r * (lo * T + lo * c) <= r * (g * W + g * p))
      by (apply Qmult_le_l; lra).
    assert (A5 : (r * g) * (W + p) <= (r * g) * (r * W')).
    { apply Qmult_le_l; [| exact H8]. apply Qmult_lt_0_compat; lra. }
    apply Qle_trans with (r * (lo * T + lo * c)); [| apply Qle_trans with ((r * g) * (W + p))].
    + lra.
    + lra.
    + lra.
  - assert (B1 : t * c <= hi * c) by (apply Qmult_le_compat_r; lra).
    assert (B2 : r * (hi * c) <= g * (hi * c)).
    { apply Qmult_le_compat_r; [lra |]. apply Qmult_le_0_compat; lra. }
    assert (B1' : r * (t * c) <= r * (hi * c)) by (apply Qmult_le_l; lra).
    assert (B3 : r * (W + p) <= r * (hi * g * T + g * (hi * c)))
      by (apply Qmult_le_l; lra).
    assert (B4 : (r * (hi * g)) * (T + c) <= (r * (hi * g)) * (r * T')).
    { apply Qmult_le_l; [| exact H6].
      apply Qmult_lt_0_compat; [lra |]. apply Qmult_lt_0_compat; lra. }
    apply Qle_trans with (r * (W + p)); [exact H7 |].
    apply Qle_trans with ((r * (hi * g)) * (T + c)); lra.
Qed.

Lemma ratio_finish (lo hi g T W x : Q) :
  0 < T -> 0 <= x -> 0 <= g ->
  lo * T <= g * W -> W <= hi * g * T ->
  x * T <= (1 + eps) * W -> W <= (1 + eps) * (x * T) ->
  lo <= x * ((1 + eps) * g) /\ x <= hi * ((1 + eps) * g).
Proof.
  intros HT Hx Hg H1 H2 H3 H4.
  set (r := 1 + eps) in *.
  assert (Hr : 1 <= r) by (unfold r, eps; lra).
  assert (A1 : W * g <= (r * (x * T)) * g) by (apply Qmult_le_compat_r; lra).
  assert (A2 : W * r <= (hi * g * T) * r) by (apply Qmult_le_compat_r; lra).
  split.
  - apply (Qmult_le_r _ _ T HT). lra.
  - apply (Qmult_le_r _ _ T HT). lra.
Qed.

End FloatError.

(** The levels of a table lie between two rationals. *)
Definition levels_between (lo hi : Q) (table : gmap string float) : Prop :=
  map_Forall (fun _ tl => (lo <= value_of tl)%Q /\ (value_of tl <= hi)%Q) table.

(** A catch in the normal range of binary64: at least [2^-1022]. *)
Definition normal (x : float) : Prop := (0x1p-1022 <=? x)%float = true.

(** What the two sums satisfy after some rows, as long as both are
    finite: their ratio is within [lo, hi] up to the factor [g]. *)
Definition ratio_bound (lo hi g : Q) (vars : Locals float) : Prop :=
  finite_nonneg (total_catch vars) -> finite_nonneg (weighted_sum vars) ->
  (lo * value_of (total_catch vars) <= g * value_of (weighted_sum vars))%Q /\
  (value_of (weighted_sum vars) <= hi * g * value_of (total_catch vars))%Q.

(** The relative error allowed for [n] contributing rows:
    [(n + 1) * 2^-50]. *)
Definition tolerance (n : nat) : Q :=
  inject_Z (Z.of_nat (n + 1)) * (1 # 1125899906842624).

Module MeanError.
Import Values Operations FloatError.
Local Open Scope Q_scope.

Lemma levels_between_positive_finite (lo hi : Q) (table : gmap string float) :
  1 <= lo -> levels_between lo hi table -> levels_positive_finite table.
Proof.
  intros Hlo Htable s tl Hs. destruct (Htable s tl Hs) as [H1 _].
  destruct (value_pos_finite tl ltac:(lra)) as (m & e & Htl).
  exact (finite_positive_tests tl m e Htl).
Qed.

Lemma ratio_bound_init (lo hi g : Q) : ratio_bound lo hi g init.
Proof.
  intros _ _. cbn [init total_catch weighted_sum fzero binary64].
  change (value_of 0%float) with 0. split; lra.
Qed.

Lemma growth_odd_ge (k : nat) : 1 + eps <= growth (2 * k + 1).
Proof.
  replace (2 * k + 1)%nat with (S (2 * k)) by lia. rewrite growth_succ.
  pose proof (growth_ge_1 (2 * k)) as H. unfold eps in *. nra.
Qed.

Lemma growth_next (k : nat) :
  growth (2 * S k + 1) == (1 + eps) * ((1 + eps) * growth (2 * k + 1)).
Proof.
  replace (2 * S k + 1)%nat with (S (S (2 * k + 1))) by lia.
  rewrite !growth_succ. reflexivity.
Qed.

Lemma step_ratio_bound (lo hi : Q) (table : gmap string float)
    (vars : Locals float) (r : Row float) (k : nat) :
  1 <= lo -> levels_between lo hi table ->
  sums_nonneg vars ->
  contributes table r = true -> normal (catch_of r) ->
  ratio_bound lo hi (growth (2 * k + 1)) vars ->
  ratio_bound lo hi (growth (2 * S k + 1)) (step table vars r).
Proof.
  intros Hlo Htable [NT NW] Hc Hn IH.
  pose proof (contributes_positive table r Hc) as Hpos.
  destruct (contributes_level table r (levels_between_positive_finite _ _ _ Hlo Htable) Hc)
    as [Hl0 _].
  assert (Hlevel : lo <= value_of (level_of table r) /\ value_of (level_of table r) <= hi).
  { apply contributes_spec in Hc as [_ [tl Hk]]. unfold level_of. rewrite Hk.
    exact (Htable _ _ Hk). }
  destruct Hlevel as [Hl1 Hl2].
  rewrite (step_contributes table vars r Hc).
  unfold ratio_bound. cbn [total_catch weighted_sum].
  change fadd with PrimFloat.add. change fmul with PrimFloat.mul.
  set (T := total_catch vars) in *. set (W := weighted_sum vars) in *.
  set (c := catch_of r) in *. set (t := level_of table r) in *.
  intros BT BW.
  destruct (add_value T c NT (Binary64Inf.positive_is_nonneg c Hpos) BT)
    as (FT & Fc & T1 & T2).
  destruct (add_value W (t * c)%float NW (Binary64Inf.mul_nonneg t c Hl0 Hpos) BW)
    as (FW & Fp & W1 & W2).
  destruct (mul_value t c ltac:(lra) Hpos Hn Fp) as (_ & Hvc & P1 & P2).
  destruct (IH FT FW) as [I1 I2].
  rewrite growth_next.
  apply (ratio_step lo hi (growth (2 * k + 1)) (value_of T) (value_of W) (value_of c)
           (value_of t) (value_of (t * c)%float));
    try assumption; try lra.
  - apply growth_odd_ge.
  - apply finite_nonneg_value, FT.
  - apply finite_nonneg_value, FW.
  - apply finite_nonneg_value, Fp.
Qed.

Lemma ratio_bound_sums (lo hi g : Q) (vars vars' : Locals float) :
  total_catch vars' = total_catch vars ->
  weighted_sum vars' = weighted_sum vars ->
  ratio_bound lo hi g vars -> ratio_bound lo hi g vars'.
Proof. unfold ratio_bound. intros -> ->. auto. Qed.

Lemma scan_ratio_bound (lo hi : Q) (table : gmap string float) (rws : list (Row float)) :
  1 <= lo -> levels_between lo hi table ->
  Forall (fun r => normal (catch_of r)) (contributing table rws) ->
  forall (vars : Locals float) (k : nat),
    sums_nonneg vars ->
    ratio_bound lo hi (growth (2 * k + 1)) vars ->
    ratio_bound lo hi (growth (2 * (k + length (contributing table rws)) + 1))
                (scan table rws vars).
Proof.
  intros Hlo Htable.
  pose proof (levels_between_positive_finite _ _ _ Hlo Htable) as Hpf.
  unfold contributing.
  induction rws as [| r rws IH]; intros Hnormal vars k Hnn Hb.
  - cbn. replace (k + 0)%nat with k by lia. exact Hb.
  - change (scan table (r :: rws) vars) with (scan table rws (step table vars r)).
    rewrite filter_cons in Hnormal |- *.
    destruct (decide (contributes table r = true)) as [Hc | Hc].
    + apply Forall_cons in Hnormal as [Hn Hrest].
      cbn [length].
      replace (k + S (length (filter (fun r0 => contributes table r0 = true) rws)))%nat
        with (S k + length (filter (fun r0 => contributes table r0 = true) rws))%nat by lia.
      apply IH; [exact Hrest | apply step_sums_nonneg; assumption |].
      apply step_ratio_bound; assumption.
    + apply not_true_is_false in Hc.
      destruct (sums_step_idle table vars r Hc) as [Ht Hw].
      apply IH; [exact Hnormal | |].
      * destruct Hnn as [N1 N2]. split; [rewrite Ht | rewrite Hw]; assumption.
      * apply (ratio_bound_sums _ _ _ vars); assumption.
Qed.

Lemma outcome_returns (table : gmap string float) (df : DataFrame float) (x : float) :
  outcome_of table df = Return x ->
  finish (scan table (rows df) init) = Return x.
Proof.
  unfold outcome_of. destruct (shape_of (columns df)); try discriminate; [| auto].
  destruct (any_valid_catch (rows df)); discriminate.
Qed.

Lemma tolerance_bound (n : nat) :
  (Z.of_nat n < 2 ^ 48)%Z ->
  growth (2 * n + 1) <= 2 /\ (1 + eps) * growth (2 * n + 1) <= 1 + tolerance n.
Proof.
  intros Hn.
  assert (Hk : inject_Z (Z.of_nat (2 * n + 2)) * eps <= 1 # 2).
  { assert (H : inject_Z (Z.of_nat (2 * n + 2)) <= inject_Z 2251799813685248).
    { rewrite <- Zle_Qle. change (2 ^ 48)%Z with 281474976710656%Z in Hn. lia. }
    change (inject_Z 2251799813685248) with (2251799813685248 # 1) in H.
    unfold eps. lra. }
  pose proof (growth_linear (2 * n + 2) Hk) as Hlin.
  replace (2 * n + 2)%nat with (S (2 * n + 1)) in Hlin at 1 by lia.
  rewrite growth_succ in Hlin.
  assert (Htol : 2 * (inject_Z (Z.of_nat (2 * n + 2)) * eps) == tolerance n).
  { unfold tolerance, eps.
    replace (Z.of_nat (2 * n + 2)) with (2 * Z.of_nat (n + 1))%Z by lia.
    rewrite inject_Z_mult. change (inject_Z 2) with 2.
    field. }
  rewrite Htol in Hlin. split; [| exact Hlin].
  pose proof (growth_ge_1 (2 * n + 1)) as Hg.
  rewrite <- Htol in Hlin. unfold eps in *. nra.
Qed.

End MeanError.

(** A catch below the normal range makes the product of line 75
    underflow, and the mean leaves the range of the levels by far more
    than a rounding: one Shrimp row of [2^-1074] kg, at level [2.5],
    gives the mean [2.0]. *)
Lemma subnormal_catch_mean_below_smallest_level :
  (0 <? 0x1p-1074)%float = true /\
  (0x1p-1074 <? 0x1p-1022)%float = true /\
  (calculate_mtl (VRef 0)
     (state_with TROPHIC_LEVELS (frame [("Shrimp", 0x1p-1074%float)]))).1
  = Return 2%float /\
  (2 <? 2.5)%float = true.
Proof. repeat split; vm_compute; reflexivity. Qed.

(** C9, amended: the binary64 number the call returns lies in the
    range of the trophic levels up to the rounding of the two sums and
    of the division.  Let every level of the table be a finite number
    between the rationals [lo] and [hi], with [1 <= lo]; let every row
    that adds to the sums have a catch in the normal range (at least
    [2^-1022], so that its product with the level does not
    underflow), and let there be [n < 2^48] such rows.  Then a
    returned float that is positive and finite denotes a rational [v]
    with [lo <= v * (1 + (n + 1) * 2^-50)] and
    [v <= hi * (1 + (n + 1) * 2^-50)].  (When a sum overflows, the
    returned float is infinite or NaN.) *)
Theorem mean_within_levels_up_to_rounding
    (σ : State float) (l : loc) (df : DataFrame float) (lo hi : Q) (x : float) :
  heap σ !! l = Some df ->
  (1 <= lo)%Q ->
  levels_between lo hi (trophic_levels σ) ->
  Forall (fun r => normal (catch_of r)) (contributing (trophic_levels σ) (rows df)) ->
  (Z.of_nat (length (contributing (trophic_levels σ) (rows df))) < 2 ^ 48)%Z ->
  (calculate_mtl (VRef l) σ).1 = Return x ->
  (0 <? x)%float = true ->
  (x <? infinity)%float = true ->
  (lo <= value_of x * (1 + tolerance (length (contributing (trophic_levels σ) (rows df)))))%Q /\
  (value_of x <= hi * (1 + tolerance (length (contributing (trophic_levels σ) (rows df)))))%Q.
Proof.
  intros Hl Hlo Htable Hnormal Hn Hret Hx0 Hxf.
  rewrite (call_outcome σ l df Hl) in Hret.
  apply MeanError.outcome_returns in Hret.
  set (table := trophic_levels σ) in *.
  set (n := length (contributing table (rows df))) in *.
  set (vars := scan table (rows df) init) in *.
  pose proof (MeanError.levels_between_positive_finite _ _ _ Hlo Htable) as Hpf.
  assert (Hnn : sums_nonneg vars).
  { apply scan_sums_nonneg; [exact Hpf | split; reflexivity]. }
  assert (Hb : ratio_bound lo hi (FloatError.growth (2 * n + 1)) vars).
  { apply (MeanError.scan_ratio_bound lo hi table (rows df) Hlo Htable Hnormal init 0%nat).
    - split; reflexivity.
    - apply MeanError.ratio_bound_init. }
  unfold finish in Hret.
  destruct (feqb (total_catch vars) fzero) eqn:Hz; [discriminate |].
  injection Hret as <-. change fdiv with PrimFloat.div in *.
  destruct Hnn as [NT NW].
  assert (HT : (0 <? total_catch vars)%float = true).
  { destruct (total_catch_zero_or_positive table (rows df) init total_catch_init)
      as [[H0 _] | H0]; [| exact H0].
    fold vars in H0. rewrite H0 in Hz. discriminate Hz. }
  destruct (FloatError.div_finite _ _ NW HT Hx0 Hxf) as [(mw & ew & EW) (mt & et & ET)].
  assert (FT : finite_nonneg (total_catch vars)) by (unfold finite_nonneg; rewrite ET; reflexivity).
  assert (FW : finite_nonneg (weighted_sum vars)) by (unfold finite_nonneg; rewrite EW; reflexivity).
  destruct (Hb FT FW) as [I1 I2].
  destruct (MeanError.tolerance_bound n Hn) as [G2 Gtol].
  pose proof (FloatError.growth_ge_1 (2 * n + 1)) as G1.
  assert (VT : (0 < value_of (total_catch vars))%Q).
  { unfold value_of. rewrite ET. apply Values.scaled_pos. }
  assert (VW : (0 < value_of (weighted_sum vars))%Q).
  { unfold value_of. rewrite EW. apply Values.scaled_pos. }
  assert (Hratio : (value_of (total_catch vars) <= 2 * value_of (weighted_sum vars))%Q).
  { set (g := FloatError.growth (2 * n + 1)) in *.
    set (vT := value_of (total_catch vars)) in *. set (vW := value_of (weighted_sum vars)) in *.
    assert (0 <= (lo - 1) * vT)%Q by (apply Qmult_le_0_compat; lra).
    assert (0 <= (2 - g) * vW)%Q by (apply Qmult_le_0_compat; lra).
    lra. }
  destruct (FloatError.div_value _ _ mw ew mt et EW ET Hratio Hx0 Hxf) as [D1 D2].
  destruct (Binary64Inf.finite_positive _ Hx0 Hxf) as (mx & ex & EX).
  assert (VX : (0 < value_of (weighted_sum vars / total_catch vars)%float)%Q).
  { unfold value_of. rewrite EX. apply Values.scaled_pos. }
  destruct (FloatError.ratio_finish lo hi (FloatError.growth (2 * n + 1))
              (value_of (total_catch vars)) (value_of (weighted_sum vars))
              (value_of (weighted_sum vars / total_catch vars)%float))
    as [R1 R2]; try assumption; try lra.
  set (g := ((1 + eps) * FloatError.growth (2 * n + 1))%Q) in *.
  set (v := value_of (weighted_sum vars / total_catch vars)%float) in *.
  assert (Hg : (1 <= g)%Q) by (unfold g, eps in *; nra).
  assert (Hhi : (0 <= hi)%Q).
  { destruct (Qlt_le_dec hi 0) as [Hneg | Hpos]; [| exact Hpos].
    exfalso. assert (0 <= (g - 1) * (- hi))%Q by (apply Qmult_le_0_compat; lra). lra. }
  assert (A1 : (v * g <= v * (1 + tolerance n))%Q) by (apply Qmult_le_l; lra).
  assert (A2 : (hi * g <= hi * (1 + tolerance n))%Q).
  { rewrite (Qmult_comm hi g), (Qmult_comm hi (1 + tolerance n)).
    apply Qmult_le_compat_r; lra. }
  split; lra.
Qed.

Lemma TROPHIC_LEVELS_between : levels_between (5 # 2) (9 # 2) TROPHIC_LEVELS.
Proof.
  apply map_Forall_to_list.
  let levels := eval vm_compute in (map_to_list TROPHIC_LEVELS) in
  replace (map_to_list TROPHIC_LEVELS) with levels by (vm_compute; reflexivity).
  repeat (constructor; [split; vm_compute; discriminate |]). constructor.
Qed.

Lemma mean_within_levels_up_to_rounding_witness :
  (5 # 2 <= value_of 4.4000000000000012 *
            (1 + tolerance (length (contributing TROPHIC_LEVELS
                                      (rows (frame [("Swordfish", 1%float);
                                                    ("Swordfish", 14%float)]))))))%Q /\
  (value_of 4.4000000000000012
   <= (9 # 2) * (1 + tolerance (length (contributing TROPHIC_LEVELS
                                          (rows (frame [("Swordfish", 1%float);
                                                        ("Swordfish", 14%float)]))))))%Q.
Proof.
  apply (mean_within_levels_up_to_rounding
           (state_with TROPHIC_LEVELS
              (frame [("Swordfish", 1%float); ("Swordfish", 14%float)]))
           0%nat
           (frame [("Swordfish", 1%float); ("Swordfish", 14%float)])
           (5 # 2) (9 # 2) 4.4000000000000012%float).
  - reflexivity.
  - vm_compute. discriminate.
  - exact TROPHIC_LEVELS_between.
  - vm_compute. repeat (constructor; [reflexivity |]). constructor.
  - vm_compute. reflexivity.
  - vm_compute. reflexivity.
  - reflexivity.
  - reflexivity.
Defined.
